(** * Slug generation and uniqueness checking: the [useComponentSlug] hook

    A shallow embedding of [generateSlug], [isValidSlug] and the
    [useComponentSlug] hook ([checkSlugUnique], [generateUniqueSlug],
    [checkSlug]) together with the properties stated about them. *)

From Stdlib Require Import String Ascii List NArith Bool Arith Lia.
From Stdlib Require DecimalN DecimalPos.
Import ListNotations.

Set Implicit Arguments.

(** ** Strings

    A JavaScript string is a sequence of UTF-16 code units. *)

Definition jsstring := list N.

(** The code units of an ASCII / Latin-1 literal. *)
Definition lit (s : string) : jsstring := map N_of_ascii (list_ascii_of_string s).

Definition inRange (lo hi c : N) : bool := ((lo <=? c) && (c <=? hi))%N.

(** [[a-z0-9]] *)
Definition isLowerAlnum (c : N) : bool := inRange 97 122 c || inRange 48 57 c.
(** [[^a-z0-9]] *)
Definition notLowerAlnum (c : N) : bool := negb (isLowerAlnum c).
(** [-] *)
Definition isHyphen (c : N) : bool := (c =? 45)%N.
(** [[A-Z]] *)
Definition isUpper (c : N) : bool := inRange 65 90 c.
(** [[A-Za-z0-9]]: the ASCII letters and digits. *)
Definition isAsciiAlnum (c : N) : bool := isUpper c || isLowerAlnum c.

(** ** Regular expressions

    The fragment of the JavaScript regular expression language used by the
    module, with the backtracking semantics of the language: a pattern run
    at a position yields the positions at which a match may end, in the
    order in which the matcher tries them. *)

Inductive regex : Type :=
| Bol                       (* ^ *)
| Eol                       (* $ *)
| Class (p : N -> bool)     (* a literal or a character class *)
| Seq (r1 r2 : regex)       (* r1 r2 *)
| Alt (r1 r2 : regex)       (* r1 | r2 *)
| Star (r : regex)          (* r* (greedy) *)
| Plus (r : regex).         (* r+ (greedy) *)

(** A position in the subject: whether it is index 0, and what is left. *)
Definition subject : Type := bool * jsstring.

Definition remaining (x : subject) : nat := length (snd x).

(** Greedy iteration: one more round of [f] first, stopping second. A round
    that consumes nothing is rejected, as the language's repeat matcher
    does. *)
Fixpoint iterStar (f : subject -> list subject) (fuel : nat) (x : subject)
  : list subject :=
  match fuel with
  | O => [x]
  | S n =>
      flat_map (fun y => if remaining y <? remaining x then iterStar f n y else [])
               (f x) ++ [x]
  end.

Fixpoint ends (r : regex) (x : subject) : list subject :=
  match r with
  | Bol => if fst x then [x] else []
  | Eol => match snd x with [] => [x] | _ :: _ => [] end
  | Class p =>
      match snd x with
      | c :: t => if p c then [(false, t)] else []
      | [] => []
      end
  | Seq r1 r2 => flat_map (ends r2) (ends r1 x)
  | Alt r1 r2 => ends r1 x ++ ends r2 x
  | Star r' => iterStar (ends r') (remaining x) x
  | Plus r' => flat_map (fun y => iterStar (ends r') (remaining y) y) (ends r' x)
  end.

(** [RegExp.prototype.test] for a regex without the [g] flag: the first
    index, from 0 on, at which the pattern matches. *)
Fixpoint testFrom (r : regex) (atStart : bool) (s : jsstring) : bool :=
  match ends r (atStart, s) with
  | _ :: _ => true
  | [] =>
      match s with
      | [] => false
      | _ :: t => testFrom r false t
      end
  end.

Definition regex_test (r : regex) (s : jsstring) : bool := testFrom r true s.

(** [String.prototype.replace] with a [g] regex and a replacement without
    [$] patterns: every match, leftmost first, is replaced; the search
    resumes where the match ended, one unit further after an empty match. *)
Fixpoint replaceFrom (fuel : nat) (r : regex) (repl : jsstring) (x : subject)
  : jsstring :=
  match fuel with
  | O => snd x
  | S n =>
      match hd_error (ends r x) with
      | Some y =>
          if remaining y <? remaining x
          then repl ++ replaceFrom n r repl y
          else match snd x with
               | [] => repl
               | c :: t => repl ++ c :: replaceFrom n r repl (false, t)
               end
      | None =>
          match snd x with
          | [] => []
          | c :: t => c :: replaceFrom n r repl (false, t)
          end
      end
  end.

Definition replaceAll (r : regex) (repl : jsstring) (s : jsstring) : jsstring :=
  replaceFrom (S (length s)) r repl (true, s).

(** The four patterns of the module. *)

(** [/[^a-z0-9]+/g] *)
Definition reNonAlnumRun : regex := Plus (Class notLowerAlnum).
(** [/^-+|-+$/g] *)
Definition reEdgeHyphens : regex :=
  Alt (Seq Bol (Plus (Class isHyphen))) (Seq (Plus (Class isHyphen)) Eol).
(** [/-+/g] *)
Definition reHyphenRun : regex := Plus (Class isHyphen).
(** [/^[a-z0-9]+(?:-[a-z0-9]+)*$/] *)
Definition slugRegex : regex :=
  Seq Bol
    (Seq (Plus (Class isLowerAlnum))
       (Seq (Star (Seq (Class isHyphen) (Plus (Class isLowerAlnum)))) Eol)).

(** ** [isValidSlug] *)

Definition isValidSlug (slug : jsstring) : bool := regex_test slugRegex slug.

(** ** [generateSlug] *)

Section Normalizer.

(** [String.prototype.toLowerCase] maps each code point by the Unicode
    lowercase mapping.  The mapping is written out for Basic Latin, Latin-1,
    U+0130 (whose lowercase is "i" followed by U+0307) and U+212A (the Kelvin
    sign, whose lowercase is "k"); outside Basic Latin these two are the
    only code points whose lowercase form contains a character of
    [[a-z0-9]].  The engine's table for all other code units is the
    parameter [lowerOther], which may look at the units before and after
    (final sigma, surrogate pairs). *)
Variable lowerOther : jsstring -> N -> jsstring -> jsstring.

Definition isLatin1Upper (c : N) : bool :=
  inRange 192 222 c && negb (c =? 215)%N.

Definition lowerUnit (before : jsstring) (c : N) (after : jsstring) : jsstring :=
  if (c <? 128)%N then [if isUpper c then (c + 32)%N else c]
  else if (c <? 256)%N then [if isLatin1Upper c then (c + 32)%N else c]
  else if (c =? 304)%N then [105; 775]%N
  else if (c =? 8490)%N then [107]%N
  else lowerOther before c after.

Fixpoint lowerFrom (before s : jsstring) : jsstring :=
  match s with
  | [] => []
  | c :: after => lowerUnit before c after ++ lowerFrom (before ++ [c]) after
  end.

Definition toLowerCase (s : jsstring) : jsstring := lowerFrom [] s.

Definition generateSlug (name : jsstring) : jsstring :=
  replaceAll reHyphenRun (lit "-")
    (replaceAll reEdgeHyphens (lit "")
       (replaceAll reNonAlnumRun (lit "-")
          (toLowerCase name))).

(** The name holds an alphanumeric character as the normalizer sees it:
    one that, lowercased, is in [[a-z0-9]]. *)
Definition hasAlphanumeric (name : jsstring) : bool :=
  existsb isLowerAlnum (toLowerCase name).

End Normalizer.

(** ** The remote table and the hook's state

    [client.from("components").select("id").eq("component_slug", slug)]
    resolves to an object with a [data] field (the matching rows, or null)
    and an [error] field (null when the query succeeded). *)

Record Response : Type := {
  data : option (list N);        (* the ids of the matching rows *)
  error : option jsstring        (* the error object (its message), if any *)
}.

(** The client of one hook instance: its answer to the [n]-th query made
    so far, for the slug asked.  The table may change between queries. *)
Definition Client : Type := nat -> jsstring -> Response.

(** The three module-level atoms. *)
Record Atoms : Type := {
  slugAvailableAtom : option bool;
  slugCheckingAtom : bool;
  slugErrorAtom : option jsstring
}.

Definition initialAtoms : Atoms :=
  {| slugAvailableAtom := None; slugCheckingAtom := false; slugErrorAtom := None |}.

Record World : Type := {
  atoms : Atoms;
  queries : list jsstring;       (* the slugs asked of the table, oldest first *)
  console : list jsstring        (* what console.error printed *)
}.

Definition initialWorld : World :=
  {| atoms := initialAtoms; queries := []; console := [] |}.

Definition setAtoms (f : Atoms -> Atoms) (w : World) : World :=
  {| atoms := f (atoms w); queries := queries w; console := console w |}.

Definition logQuery (slug : jsstring) (w : World) : World :=
  {| atoms := atoms w; queries := queries w ++ [slug]; console := console w |}.

Definition logConsole (msg : jsstring) (w : World) : World :=
  {| atoms := atoms w; queries := queries w; console := console w ++ [msg] |}.

(** ** Asynchronous functions

    The body of an async function: its effects in order.  [Select] is the
    [await] of a query; the function is suspended there until the response
    arrives. *)

Inductive Prog (A : Type) : Type :=
| Ret (a : A)
| Select (slug : jsstring) (k : Response -> Prog A)
| ConsoleError (msg : jsstring) (k : Prog A)
| SetSlugAvailable (v : option bool) (k : Prog A)
| SetSlugChecking (v : bool) (k : Prog A)
| SetSlugError (v : option jsstring) (k : Prog A).

Arguments Ret {A} a.

Fixpoint bind {A B : Type} (p : Prog A) (f : A -> Prog B) : Prog B :=
  match p with
  | Ret a => f a
  | Select slug k => Select slug (fun r => bind (k r) f)
  | ConsoleError msg k => ConsoleError msg (bind k f)
  | SetSlugAvailable v k => SetSlugAvailable v (bind k f)
  | SetSlugChecking v k => SetSlugChecking v (bind k f)
  | SetSlugError v k => SetSlugError v (bind k f)
  end.

Notation "x <- p ;; q" := (bind p (fun x => q))
  (at level 61, p at next level, right associativity).
Notation "p ;;; q" := (bind p (fun _ => q))
  (at level 61, right associativity).

Definition select (slug : jsstring) : Prog Response := Select slug Ret.
Definition consoleError (msg : jsstring) : Prog unit := ConsoleError msg (Ret tt).
Definition setSlugAvailable (v : option bool) : Prog unit := SetSlugAvailable v (Ret tt).
Definition setSlugChecking (v : bool) : Prog unit := SetSlugChecking v (Ret tt).
Definition setSlugError (v : option jsstring) : Prog unit := SetSlugError v (Ret tt).

(** Running a function to completion against a client, every query being
    answered before anything else happens. *)
Fixpoint run {A : Type} (client : Client) (p : Prog A) (w : World) : A * World :=
  match p with
  | Ret a => (a, w)
  | Select slug k => run client (k (client (length (queries w)) slug)) (logQuery slug w)
  | ConsoleError msg k => run client k (logConsole msg w)
  | SetSlugAvailable v k =>
      run client k (setAtoms (fun a =>
        {| slugAvailableAtom := v; slugCheckingAtom := slugCheckingAtom a;
           slugErrorAtom := slugErrorAtom a |}) w)
  | SetSlugChecking v k =>
      run client k (setAtoms (fun a =>
        {| slugAvailableAtom := slugAvailableAtom a; slugCheckingAtom := v;
           slugErrorAtom := slugErrorAtom a |}) w)
  | SetSlugError v k =>
      run client k (setAtoms (fun a =>
        {| slugAvailableAtom := slugAvailableAtom a;
           slugCheckingAtom := slugCheckingAtom a; slugErrorAtom := v |}) w)
  end.

(** Running a function up to its next [await]: either it returned, or it is
    suspended on a query with the rest of its body. *)
Fixpoint advance {A : Type} (p : Prog A) (w : World)
  : World * (A + (Response -> Prog A)) :=
  match p with
  | Ret a => (w, inl a)
  | Select slug k => (logQuery slug w, inr k)
  | ConsoleError msg k => advance k (logConsole msg w)
  | SetSlugAvailable v k =>
      advance k (setAtoms (fun a =>
        {| slugAvailableAtom := v; slugCheckingAtom := slugCheckingAtom a;
           slugErrorAtom := slugErrorAtom a |}) w)
  | SetSlugChecking v k =>
      advance k (setAtoms (fun a =>
        {| slugAvailableAtom := slugAvailableAtom a; slugCheckingAtom := v;
           slugErrorAtom := slugErrorAtom a |}) w)
  | SetSlugError v k =>
      advance k (setAtoms (fun a =>
        {| slugAvailableAtom := slugAvailableAtom a;
           slugCheckingAtom := slugCheckingAtom a; slugErrorAtom := v |}) w)
  end.

(** ** [checkSlugUnique] *)

(** [data?.length === 0] *)
Definition dataIsEmpty (r : Response) : bool :=
  match data r with
  | Some [] => true
  | _ => false
  end.

(** What [checkSlugUnique] does with the response. *)
Definition uniqueAnswer (r : Response) : Prog bool :=
  match error r with
  | Some _ =>
      consoleError (lit "Error checking slug uniqueness:") ;;;
      Ret false
  | None => Ret (dataIsEmpty r)
  end.

Definition checkSlugUnique (slug : jsstring) : Prog bool :=
  r <- select slug ;;
  uniqueAnswer r.

(** ** [generateUniqueSlug] *)

Fixpoint digitsOf (d : Decimal.uint) : jsstring :=
  match d with
  | Decimal.Nil => []
  | Decimal.D0 d' => 48%N :: digitsOf d'
  | Decimal.D1 d' => 49%N :: digitsOf d'
  | Decimal.D2 d' => 50%N :: digitsOf d'
  | Decimal.D3 d' => 51%N :: digitsOf d'
  | Decimal.D4 d' => 52%N :: digitsOf d'
  | Decimal.D5 d' => 53%N :: digitsOf d'
  | Decimal.D6 d' => 54%N :: digitsOf d'
  | Decimal.D7 d' => 55%N :: digitsOf d'
  | Decimal.D8 d' => 56%N :: digitsOf d'
  | Decimal.D9 d' => 57%N :: digitsOf d'
  end.

(** The string a template literal makes of [suffix]: its decimal digits.
    [suffix] is a counter that starts at 1 and grows by 1; a JavaScript
    number holds such a counter exactly up to 2^53, and it is kept here as a
    natural number. *)
Definition numberToString (n : N) : jsstring := digitsOf (N.to_uint n).

Record LoopVars : Type := {
  newSlug : jsstring;
  isUnique : bool;
  suffix : N
}.

Section Resolver.

Variable lowerOther : jsstring -> N -> jsstring -> jsstring.

(** The statements before the loop. *)
Definition loopEntry (baseName : jsstring) : Prog LoopVars :=
  let newSlug0 := generateSlug lowerOther baseName in
  isUnique0 <- checkSlugUnique newSlug0 ;;
  Ret {| newSlug := newSlug0; isUnique := isUnique0; suffix := 1 |}.

(** The body of the loop. *)
Definition loopBody (baseName : jsstring) (v : LoopVars) : Prog LoopVars :=
  let newSlug1 :=
    generateSlug lowerOther baseName ++ lit "-" ++ numberToString (suffix v) in
  isUnique1 <- checkSlugUnique newSlug1 ;;
  Ret {| newSlug := newSlug1; isUnique := isUnique1; suffix := suffix v + 1 |}.

(** [while (!isUnique) { ... } return newSlug], unfolded at most [fuel]
    times: [None] is a loop that is still running after [fuel] rounds. *)
Fixpoint whileNotUnique (fuel : nat) (baseName : jsstring) (v : LoopVars)
  : Prog (option jsstring) :=
  if isUnique v then Ret (Some (newSlug v))
  else match fuel with
       | O => Ret None
       | S n => v' <- loopBody baseName v ;; whileNotUnique n baseName v'
       end.

Definition generateUniqueSlug (fuel : nat) (baseName : jsstring)
  : Prog (option jsstring) :=
  v <- loopEntry baseName ;; whileNotUnique fuel baseName v.

End Resolver.

(** ** [checkSlug] *)

Definition checkSlug (slug : jsstring) : Prog unit :=
  setSlugChecking true ;;;
  setSlugError None ;;;
  (if negb (isValidSlug slug) then
     setSlugAvailable (Some false) ;;;
     setSlugError (Some (lit "Invalid slug format"))
   else
     isUnique0 <- checkSlugUnique slug ;;
     setSlugAvailable (Some isUnique0) ;;;
     (if negb isUnique0 then setSlugError (Some (lit "This slug is already taken"))
      else Ret tt)) ;;;
  setSlugChecking false.

(** What is left of a call of [checkSlug] once the response to its query
    is there. *)
Definition checkSlugResume (r : Response) : Prog unit :=
  (isUnique0 <- uniqueAnswer r ;;
   setSlugAvailable (Some isUnique0) ;;;
   (if negb isUnique0 then setSlugError (Some (lit "This slug is already taken"))
    else Ret tt)) ;;;
  setSlugChecking false.

(** ** Calls in flight

    The page runs one thing at a time: a call of [checkSlug] runs up to its
    [await], and runs on when the response to its query arrives, whatever
    was called or answered in between. *)

Record Pending : Type := {
  callId : nat;
  resume : Response -> Prog unit
}.

Record Sched : Type := {
  world : World;
  pending : list Pending;        (* the suspended calls, oldest query first *)
  started : nat                  (* how many calls were made *)
}.

Definition initialSched : Sched :=
  {| world := initialWorld; pending := []; started := 0 |}.

Inductive Event : Type :=
| Call (slug : jsstring)                 (* checkSlug(slug) is called *)
| Settle (id : nat) (r : Response).      (* the query of call [id] is answered *)

Definition isCall (id : nat) (p : Pending) : bool := callId p =? id.

Definition step (s : Sched) (e : Event) : Sched :=
  match e with
  | Call slug =>
      match advance (checkSlug slug) (world s) with
      | (w', inl _) =>
          {| world := w'; pending := pending s; started := S (started s) |}
      | (w', inr k) =>
          {| world := w';
             pending := pending s ++ [{| callId := started s; resume := k |}];
             started := S (started s) |}
      end
  | Settle id r =>
      match find (isCall id) (pending s) with
      | None => s
      | Some p =>
          let others := filter (fun q => negb (isCall id q)) (pending s) in
          match advance (resume p r) (world s) with
          | (w', inl _) =>
              {| world := w'; pending := others; started := started s |}
          | (w', inr k) =>
              {| world := w';
                 pending := others ++ [{| callId := id; resume := k |}];
                 started := started s |}
          end
      end
  end.

Definition runEvents (trace : list Event) : Sched :=
  fold_left step trace initialSched.

Definition isPending (id : nat) (s : Sched) : bool :=
  existsb (isCall id) (pending s).

(** Every suspended call is a call of [checkSlug] waiting for its response. *)
Definition allCheckSlug (s : Sched) : Prop :=
  Forall (fun p => resume p = checkSlugResume) (pending s).

(** ** Hook instances

    Each component that calls [useComponentSlug] gets its own client and
    callbacks; [useAtom] hands every one of them the value of the same
    module-level atoms. *)

Record Instance : Type := {
  instanceClient : Client
}.

Definition observe (i : Instance) (w : World) : option bool * bool * option jsstring :=
  (slugAvailableAtom (atoms w), slugCheckingAtom (atoms w), slugErrorAtom (atoms w)).

Definition checkSlugIn (i : Instance) (slug : jsstring) (w : World) : World :=
  snd (run (instanceClient i) (checkSlug slug) w).

(** ** The statements under test *)

(** The responses of a table that has no row, has one row, or cannot be
    reached. *)
Definition freeResponse : Response := {| data := Some []; error := None |}.
Definition takenResponse : Response := {| data := Some [1%N]; error := None |}.
Definition failedResponse : Response :=
  {| data := None; error := Some (lit "fetch failed") |}.

(** The table reports no existing match. *)
Definition reportsFree (r : Response) : bool :=
  match error r with
  | Some _ => false
  | None => dataIsEmpty r
  end.

(** The atoms once a response was taken in by [checkSlug]. *)
Definition applyResponse (r : Response) (a : Atoms) : Atoms :=
  {| slugAvailableAtom := Some (reportsFree r);
     slugCheckingAtom := false;
     slugErrorAtom := if reportsFree r then slugErrorAtom a
                      else Some (lit "This slug is already taken") |}.

(** The atoms once [checkSlug] found the slug malformed. *)
Definition invalidFormatAtoms : Atoms :=
  {| slugAvailableAtom := Some false;
     slugCheckingAtom := false;
     slugErrorAtom := Some (lit "Invalid slug format") |}.

(** The atoms while a call of [checkSlug] waits for the table. *)
Definition checkingAtoms (a : Atoms) : Atoms :=
  {| slugAvailableAtom := slugAvailableAtom a;
     slugCheckingAtom := true;
     slugErrorAtom := None |}.

Definition alwaysFree : Client := fun _ _ => freeResponse.
Definition alwaysTaken : Client := fun _ _ => takenResponse.
Definition alwaysFailing : Client := fun _ _ => failedResponse.

(** Two forms on the page, each with its own client. *)
Definition formA : Instance := {| instanceClient := alwaysFree |}.
Definition formB : Instance := {| instanceClient := alwaysTaken |}.

(** The world after the query for [slug] was made and answered. *)
Definition answered (client : Client) (slug : jsstring) (w : World) : World :=
  match error (client (length (queries w)) slug) with
  | Some _ => logConsole (lit "Error checking slug uniqueness:") (logQuery slug w)
  | None => logQuery slug w
  end.

(** base, base-1, base-2, ... *)
Definition candidate (base : jsstring) (i : nat) : jsstring :=
  match i with
  | O => base
  | S _ => base ++ lit "-" ++ numberToString (N.of_nat i)
  end.

(** Whether the [i]-th query of a call of [generateUniqueSlug] that started
    after [q0] queries finds its candidate reported free. *)
Definition freeAt (lowerOther : jsstring -> N -> jsstring -> jsstring)
    (client : Client) (baseName : jsstring) (q0 i : nat) : bool :=
  reportsFree (client (q0 + i) (candidate (generateSlug lowerOther baseName) i)).

(** The table reports an existing match. *)
Definition reportsExisting (r : Response) : bool :=
  match error r, data r with
  | None, Some (_ :: _) => true
  | _, _ => false
  end.

(** A run of the [g] replacements written as plain list functions. *)

Fixpoint dropWhile (p : N -> bool) (s : jsstring) : jsstring :=
  match s with
  | [] => []
  | c :: t => if p c then dropWhile p t else s
  end.

(** Every maximal run of units in [p] becomes one hyphen; [inRun] tells
    that the unit before was in [p]. *)
Fixpoint collapseRuns (p : N -> bool) (inRun : bool) (s : jsstring) : jsstring :=
  match s with
  | [] => []
  | c :: t =>
      if p c then (if inRun then collapseRuns p true t else 45%N :: collapseRuns p true t)
      else c :: collapseRuns p false t
  end.

Fixpoint dropTrailingHyphens (s : jsstring) : jsstring :=
  match s with
  | [] => []
  | c :: t => if forallb isHyphen s then [] else c :: dropTrailingHyphens t
  end.

Definition stripEdges (s : jsstring) : jsstring :=
  dropTrailingHyphens (dropWhile isHyphen s).

(** The positions at which [[p]*] may stop, longest match first. *)
Fixpoint starEnds (p : N -> bool) (atStart : bool) (s : jsstring) : list subject :=
  match s with
  | [] => [(atStart, [])]
  | c :: t => if p c then starEnds p false t ++ [(atStart, s)] else [(atStart, s)]
  end.

(** The slug grammar read left to right; [afterAlnum] tells that the unit
    before was in [[a-z0-9]]. *)
Fixpoint scanSlug (afterAlnum : bool) (s : jsstring) : bool :=
  match s with
  | [] => afterAlnum
  | c :: t =>
      if isLowerAlnum c then scanSlug true t
      else if isHyphen c then afterAlnum && scanSlug false t
      else false
  end.

(** What may follow an alphanumeric run: nothing, or a hyphen and the rest
    of a slug. *)
Definition hyphenTail (s : jsstring) : bool :=
  match s with
  | [] => true
  | c :: t => isHyphen c && scanSlug false t
  end.

(** [-[a-z0-9]+] *)
Definition hyphenSegment : regex := Seq (Class isHyphen) (Plus (Class isLowerAlnum)).

Definition atEnd (y : subject) : bool :=
  match ends Eol y with [] => false | _ :: _ => true end.

(** [[a-z0-9-]] *)
Definition isSlugChar (c : N) : bool := isLowerAlnum c || isHyphen c.

(** The hyphen-led segments after the first one. *)
Definition hyphenated (segs : list jsstring) : jsstring :=
  flat_map (fun seg => 45%N :: seg) segs.

(** The grammar in words: non-empty lowercase alphanumeric segments
    separated by single hyphens. *)
Definition isSegment (seg : jsstring) : Prop :=
  seg <> [] /\ forallb isLowerAlnum seg = true.

Fixpoint joinHyphen (segs : list jsstring) : jsstring :=
  match segs with
  | [] => []
  | [seg] => seg
  | seg :: rest => seg ++ 45%N :: joinHyphen rest
  end.

Definition slugGrammar (s : jsstring) : Prop :=
  exists segs, segs <> [] /\ Forall isSegment segs /\ s = joinHyphen segs.

Definition hasUppercase (s : jsstring) : bool := existsb isUpper s.

Definition leadingHyphen (s : jsstring) : bool :=
  match s with
  | c :: _ => isHyphen c
  | [] => false
  end.

Definition trailingHyphen (s : jsstring) : bool := leadingHyphen (rev s).

Fixpoint doubledHyphen (s : jsstring) : bool :=
  match s with
  | c :: t => (isHyphen c && leadingHyphen t) || doubledHyphen t
  | [] => false
  end.

(** "my-button" and "my-button-1" are taken, "my-button-2" is free. *)
Definition scenarioClient : Client := fun _ slug =>
  if list_eq_dec N.eq_dec slug (lit "my-button-2") then freeResponse else takenResponse.

(** The engine table that leaves a code unit as it is; it stands for the
    parameter where a statement is evaluated. *)
Definition idLower : jsstring -> N -> jsstring -> jsstring := fun _ c _ => [c].



(** ** The slug as words

    The maximal runs of [[a-z0-9]] in a string, left to right. *)

Definition leadingAlnum (s : jsstring) : bool :=
  match s with
  | c :: _ => isLowerAlnum c
  | [] => false
  end.

Fixpoint alnumRuns (s : jsstring) : list jsstring :=
  match s with
  | [] => []
  | c :: t =>
      if isLowerAlnum c then
        if leadingAlnum t then
          match alnumRuns t with
          | r :: rs => (c :: r) :: rs
          | [] => [[c]]
          end
        else [c] :: alnumRuns t
      else alnumRuns t
  end.

(** Two slugs put together: a hyphen between them when both are there. *)
Definition joinSlugs (a b : jsstring) : jsstring :=
  match a, b with
  | [], _ => b
  | _, [] => a
  | _, _ => a ++ 45%N :: b
  end.

(** The trace of calls in which the slug was well formed, oldest first. *)
Fixpoint validCalls (trace : list Event) : list jsstring :=
  match trace with
  | [] => []
  | Call slug :: rest =>
      if isValidSlug slug then slug :: validCalls rest else validCalls rest
  | Settle _ _ :: rest => validCalls rest
  end.

(** ** The video preview ([ComponentVideoPreview])

    What the handlers of the component act on: the icon element found by
    [document.querySelector] (none when nothing matches), the video element
    behind [videoRef] with the calls made on it so far, the state
    [isVideoLoaded], and the [play()] promises that carry the callback
    setting that state.

    The handlers are closures made when the component renders: they hold
    the value that [isVideoLoaded] had at that render, and they are replaced
    only when the component renders again.  The state only ever goes from
    false to true ([setIsVideoLoaded(true)] is the one call that sets it);
    [renderPending] tells that it did so since the last render, so that the
    handlers attached still hold false. *)

Record IconStyle : Type := {
  opacity : jsstring;
  visibility : jsstring
}.

Inductive VideoOp : Type :=
| SetSrc (url : jsstring)      (* videoElement.src = url *)
| Load                         (* videoElement.load() *)
| Play                         (* videoElement.play() *)
| Pause.                       (* videoElement.pause() *)

Record Preview : Type := {
  videoIcon : option IconStyle;
  videoElement : option (list VideoOp);   (* oldest call first *)
  isVideoLoaded : bool;                   (* the state *)
  renderPending : bool;                   (* the state was set since the last render *)
  loadingPlays : nat                      (* unsettled play().then(setIsVideoLoaded) *)
}.

(** [isVideoLoaded] as the handlers attached read it. *)
Definition handlerSeesLoaded (p : Preview) : bool :=
  isVideoLoaded p && negb (renderPending p).

Definition toggleVideoIcon (hide : bool) (p : Preview) : Preview :=
  match videoIcon p with
  | Some _ =>
      {| videoIcon := Some {| opacity := if hide then lit "0" else lit "1";
                              visibility := if hide then lit "hidden" else lit "visible" |};
         videoElement := videoElement p;
         isVideoLoaded := isVideoLoaded p;
         renderPending := renderPending p;
         loadingPlays := loadingPlays p |}
  | None => p
  end.

Definition handleMouseEnter (video_url : option jsstring) (p : Preview) : Preview :=
  let p1 := toggleVideoIcon true p in
  match videoElement p1, video_url with
  | Some ops, Some (c :: u) =>
      if negb (handlerSeesLoaded p1) then
        {| videoIcon := videoIcon p1;
           videoElement := Some (ops ++ [SetSrc (c :: u); Load; Play]);
           isVideoLoaded := isVideoLoaded p1;
           renderPending := renderPending p1;
           loadingPlays := S (loadingPlays p1) |}
      else
        {| videoIcon := videoIcon p1;
           videoElement := Some (ops ++ [Play]);
           isVideoLoaded := isVideoLoaded p1;
           renderPending := renderPending p1;
           loadingPlays := loadingPlays p1 |}
  | _, _ => p1                   (* !videoElement || !component.video_url *)
  end.

Definition handleMouseLeave (p : Preview) : Preview :=
  let p1 := toggleVideoIcon false p in
  match videoElement p1 with
  | Some ops =>
      {| videoIcon := videoIcon p1;
         videoElement := Some (ops ++ [Pause]);
         isVideoLoaded := isVideoLoaded p1;
         renderPending := renderPending p1;
         loadingPlays := loadingPlays p1 |}
  | None => p1
  end.

(** What happens to the preview: the pointer enters or leaves, one of the
    [play()] promises of a first load is fulfilled or rejected, or the
    component renders again (which attaches handlers that hold the current
    state). *)
Inductive PreviewEvent : Type :=
| MouseEnter
| MouseLeave
| PlaySettled (fulfilled : bool)
| Rendered.

(** [setIsVideoLoaded(true)]: a state that is true already is left alone;
    otherwise the state is set and a render is due. *)
Definition setIsVideoLoadedTrue (p : Preview) : Preview :=
  {| videoIcon := videoIcon p;
     videoElement := videoElement p;
     isVideoLoaded := true;
     renderPending := renderPending p || negb (isVideoLoaded p);
     loadingPlays := loadingPlays p |}.

Definition previewStep (video_url : option jsstring) (p : Preview) (e : PreviewEvent)
  : Preview :=
  match e with
  | MouseEnter => handleMouseEnter video_url p
  | MouseLeave => handleMouseLeave p
  | PlaySettled fulfilled =>
      match loadingPlays p with
      | O => p
      | S n =>
          let p1 :=
            {| videoIcon := videoIcon p;
               videoElement := videoElement p;
               isVideoLoaded := isVideoLoaded p;
               renderPending := renderPending p;
               loadingPlays := n |} in
          if fulfilled then setIsVideoLoadedTrue p1 else p1
      end
  | Rendered =>
      {| videoIcon := videoIcon p;
         videoElement := videoElement p;
         isVideoLoaded := isVideoLoaded p;
         renderPending := false;
         loadingPlays := loadingPlays p |}
  end.

Definition previewRun (video_url : option jsstring) (trace : list PreviewEvent)
    (p : Preview) : Preview :=
  fold_left (previewStep video_url) trace p.

(** The component as mounted: the video element is there and nothing was
    done to it. *)
Definition mountedPreview (icon : option IconStyle) : Preview :=
  {| videoIcon := icon; videoElement := Some []; isVideoLoaded := false;
     renderPending := false; loadingPlays := 0 |}.

(** [!component.video_url]: null and the empty string are falsy. *)
Definition noVideoUrl (video_url : option jsstring) : bool :=
  match video_url with
  | None => true
  | Some [] => true
  | Some (_ :: _) => false
  end.

Definition videoOps (p : Preview) : list VideoOp :=
  match videoElement p with
  | Some ops => ops
  | None => []
  end.

Definition isPause (op : VideoOp) : bool :=
  match op with Pause => true | _ => false end.

Definition isLoad (op : VideoOp) : bool :=
  match op with Load => true | _ => false end.

Definition reloads (op : VideoOp) : bool :=
  match op with SetSrc _ | Load => true | _ => false end.

Definition isEnter (e : PreviewEvent) : bool :=
  match e with MouseEnter => true | _ => false end.

Definition isFulfilled (e : PreviewEvent) : bool :=
  match e with PlaySettled true => true | _ => false end.

Definition isRendered (e : PreviewEvent) : bool :=
  match e with Rendered => true | _ => false end.

(** The icon after a trace whose last pointer event was [last]. *)
Definition iconAfter (last : option bool) (before : IconStyle) : IconStyle :=
  match last with
  | Some true => {| opacity := lit "0"; visibility := lit "hidden" |}
  | Some false => {| opacity := lit "1"; visibility := lit "visible" |}
  | None => before
  end.

Definition pointerStep (last : option bool) (e : PreviewEvent) : option bool :=
  match e with
  | MouseEnter => Some true
  | MouseLeave => Some false
  | PlaySettled _ => last
  | Rendered => last
  end.

(** The last pointer event of a trace: [Some true] for entering. *)
Definition lastPointer (trace : list PreviewEvent) : option bool :=
  fold_left pointerStep trace None.

Definition hiddenIcon : IconStyle := {| opacity := lit "0"; visibility := lit "hidden" |}.
Definition shownIcon : IconStyle := {| opacity := lit "1"; visibility := lit "visible" |}.

(** ** The website field of [ComponentDetailsForm]

    The patterns of the field's [onChange] rule are written with the
    constructors above: the empty pattern, [r?], a literal, [r{0,n}]. *)

Definition Eps : regex := Star (Class (fun _ => false)).

(** [r?] *)
Definition Opt (r : regex) : regex := Alt r Eps.

(** The characters of [s], one after the other. *)
Fixpoint Chars (s : jsstring) : regex :=
  match s with
  | [] => Eps
  | c :: t => Seq (Class (N.eqb c)) (Chars t)
  end.

(** [r{0,n}] *)
Fixpoint UpTo (n : nat) (r : regex) : regex :=
  match n with
  | O => Eps
  | S m => Opt (Seq r (UpTo m r))
  end.

(** [[a-zA-Z]] *)
Definition isLetter (c : N) : bool := inRange 97 122 c || inRange 65 90 c.
(** [[a-zA-Z0-9]] *)
Definition isAlnumChar (c : N) : bool := isLetter c || inRange 48 57 c.
(** [[a-zA-Z0-9-]] *)
Definition isLabelChar (c : N) : bool := isAlnumChar c || isHyphen c.
(** [\.] *)
Definition isDot (c : N) : bool := (c =? 46)%N.
(** [[/?]] *)
Definition isSlashOrQuery (c : N) : bool := (c =? 47)%N || (c =? 63)%N.
(** [.], any unit but a line terminator *)
Definition notLineTerminator (c : N) : bool :=
  negb ((c =? 10)%N || (c =? 13)%N || (c =? 8232)%N || (c =? 8233)%N).

(** [\.[a-zA-Z]{2,}] *)
Definition reDomainPart : regex :=
  Seq (Class isDot) (Seq (Class isLetter) (Plus (Class isLetter))).

(** The path part: one of [/] and [?], then any number of [.]. *)
Definition rePathPart : regex :=
  Seq (Class isSlashOrQuery) (Star (Class notLineTerminator)).

(** [urlRegex]: [^], [[a-zA-Z0-9]], [[a-zA-Z0-9-]{0,61}], [[a-zA-Z0-9]], one or
    more [\.[a-zA-Z]{2,}], an optional path part, [$]. *)
Definition urlRegex : regex :=
  Seq Bol
    (Seq (Class isAlnumChar)
       (Seq (UpTo 61 (Class isLabelChar))
          (Seq (Class isAlnumChar)
             (Seq (Plus reDomainPart)
                (Seq (Opt rePathPart) Eol))))).

(** [https?:\/\/] *)
Definition reProtocol : regex :=
  Seq (Chars (lit "http")) (Seq (Opt (Class (N.eqb 115))) (Chars (lit "://"))).

(** [/^(https?:\/\/)+(www\.)?/] *)
Definition reProtocols : regex :=
  Seq Bol (Seq (Plus reProtocol) (Opt (Chars (lit "www.")))).

(** [/\/$/] *)
Definition reTrailingSlash : regex := Seq (Class (N.eqb 47)) Eol.

(** [String.prototype.replace] with a regex without the [g] flag and a
    replacement without [$] patterns: the leftmost match is replaced. *)
Fixpoint replaceFirstFrom (r : regex) (repl : jsstring) (atStart : bool) (s : jsstring)
  : jsstring :=
  match hd_error (ends r (atStart, s)) with
  | Some y => repl ++ snd y
  | None =>
      match s with
      | [] => []
      | c :: t => c :: replaceFirstFrom r repl false t
      end
  end.

Definition replaceFirst (r : regex) (repl : jsstring) (s : jsstring) : jsstring :=
  replaceFirstFrom r repl true s.

(** White space and line terminators, as [String.prototype.trim] removes
    them. *)
Definition isWhiteSpace (c : N) : bool :=
  inRange 9 13 c || (c =? 32)%N || (c =? 160)%N || (c =? 5760)%N ||
  inRange 8192 8202 c || (c =? 8232)%N || (c =? 8233)%N || (c =? 8239)%N ||
  (c =? 8287)%N || (c =? 12288)%N || (c =? 65279)%N.

Definition trim (s : jsstring) : jsstring :=
  rev (dropWhile isWhiteSpace (rev (dropWhile isWhiteSpace s))).

(** [rawValue.trim().replace(/^(https?:\/\/)+(www\.)?/, "").replace(/\/$/, "")] *)
Definition cleanUrl (rawValue : jsstring) : jsstring :=
  replaceFirst reTrailingSlash (lit "")
    (replaceFirst reProtocols (lit "") (trim rawValue)).

(** What the rule does: whether it sets the error "Please enter a valid
    URL" on the field (it clears the field's errors otherwise), and the
    value it returns. *)
Record UrlChange : Type := {
  urlError : bool;
  formValue : jsstring
}.

Definition isTruthy (s : jsstring) : bool :=
  match s with [] => false | _ :: _ => true end.

Definition websiteUrlOnChange (rawValue : jsstring) : UrlChange :=
  let clean := cleanUrl rawValue in
  let isValid := regex_test urlRegex clean in
  {| urlError := isTruthy clean && negb isValid;
     formValue := if isTruthy clean then lit "https://" ++ clean else lit "" |}.

(** The matches of a pattern, without the order in which the matcher tries
    them: [Run r x y] says that [r], started at [x], can stop at [y]. *)
Inductive Run : regex -> subject -> subject -> Prop :=
| RunBol s : Run Bol (true, s) (true, s)
| RunEol b : Run Eol (b, []) (b, [])
| RunClass (p : N -> bool) b c t : p c = true -> Run (Class p) (b, c :: t) (false, t)
| RunSeq r1 r2 x y z : Run r1 x y -> Run r2 y z -> Run (Seq r1 r2) x z
| RunAltL r1 r2 x y : Run r1 x y -> Run (Alt r1 r2) x y
| RunAltR r1 r2 x y : Run r2 x y -> Run (Alt r1 r2) x y
| RunStarStop r x : Run (Star r) x x
| RunStarMore r x y z :
    Run r x y -> remaining y < remaining x -> Run (Star r) y z -> Run (Star r) x z
| RunPlus r x y z : Run r x y -> Run (Star r) y z -> Run (Plus r) x z.

(** The flag of a position after [u] was consumed. *)
Definition flagAfter (b : bool) (u : jsstring) : bool :=
  match u with
  | [] => b
  | _ :: _ => false
  end.

(** The website addresses the field accepts, in words: a first label of 2
    to 63 letters, digits and hyphens that begins and ends with a letter or
    digit; one or more parts made of a dot and two or more letters; then
    nothing, or a slash or question mark followed by anything on the same
    line. *)
Definition isDomainPart (part : jsstring) : Prop :=
  2 <= length part /\ forallb isLetter part = true.

Definition dotted (parts : list jsstring) : jsstring :=
  flat_map (fun part => 46%N :: part) parts.

Definition isPathPart (rest : jsstring) : Prop :=
  rest = [] \/
  exists c tail, rest = c :: tail /\ isSlashOrQuery c = true /\
                 forallb notLineTerminator tail = true.

Definition urlGrammar (s : jsstring) : Prop :=
  exists first middle last parts rest,
    s = first :: middle ++ last :: dotted parts ++ rest /\
    isAlnumChar first = true /\
    forallb isLabelChar middle = true /\ length middle <= 61 /\
    isAlnumChar last = true /\
    parts <> [] /\ Forall isDomainPart parts /\
    isPathPart rest.

(** The part of an address before its first slash or question mark. *)
Fixpoint hostOf (s : jsstring) : jsstring :=
  match s with
  | [] => []
  | c :: t => if isSlashOrQuery c then [] else c :: hostOf t
  end.

(** [[a-zA-Z0-9.-]] *)
Definition isHostChar (c : N) : bool := isLabelChar c || isDot c.

Definition secondIsDot (s : jsstring) : bool :=
  match s with
  | _ :: c :: _ => isDot c
  | _ => false
  end.

(** [s] begins with [prefix]. *)
Fixpoint startsWith (prefix s : jsstring) : bool :=
  match prefix, s with
  | [], _ => true
  | p :: prefix', c :: s' => (p =? c)%N && startsWith prefix' s'
  | _ :: _, [] => false
  end.

Definition isProtocol (p : jsstring) : Prop :=
  p = lit "http://" \/ p = lit "https://".

Definition startsWithProtocol (s : jsstring) : bool :=
  startsWith (lit "http://") s || startsWith (lit "https://") s.

(** [s] without a leading "www.". *)
Definition stripWww (s : jsstring) : jsstring :=
  if startsWith (lit "www.") s then skipn 4 s else s.

(** [s] without one slash at its end. *)
Fixpoint dropSlash (s : jsstring) : jsstring :=
  match s with
  | [] => []
  | c :: t =>
      match t with
      | [] => if (c =? 47)%N then [] else [c]
      | _ :: _ => c :: dropSlash t
      end
  end.

(** Case analysis on the comparisons that classify a code unit. *)
Ltac unit_cases :=
  unfold isSlugChar, isAsciiAlnum, isLowerAlnum, notLowerAlnum, isUpper, isHyphen,
    isLatin1Upper, inRange in *;
  repeat match goal with
         | |- context [(?a <=? ?b)%N] => destruct (N.leb_spec a b)
         | |- context [(?a <? ?b)%N] => destruct (N.ltb_spec a b)
         | |- context [(?a =? ?b)%N] => destruct (N.eqb_spec a b)
         | H : context [(?a <=? ?b)%N] |- _ => destruct (N.leb_spec a b)
         | H : context [(?a <? ?b)%N] |- _ => destruct (N.ltb_spec a b)
         | H : context [(?a =? ?b)%N] |- _ => destruct (N.eqb_spec a b)
         end;
  simpl in *; try reflexivity; try discriminate; try lia.

(** * Properties *)

(** ** The regular expression engine on the module's patterns *)

Lemma flat_map_guard (A B : Type) (f : A -> list B) (g : A -> bool) (l : list A) :
  (forall a, In a l -> g a = true) ->
  flat_map (fun a => if g a then f a else []) l = flat_map f l.
Proof.
  induction l as [|a l IH]; intros H; simpl; [reflexivity|].
  rewrite (H a (or_introl eq_refl)), IH; [reflexivity|].
  intros b Hb. apply H. right. exact Hb.
Qed.

Lemma starEnds_remaining p b s y :
  In y (starEnds p b s) -> remaining y <= length s.
Proof.
  revert b y. induction s as [|c t IH]; intros b y; simpl.
  - intros [<-|[]]. reflexivity.
  - destruct (p c).
    + rewrite in_app_iff. intros [H|[<-|[]]].
      * apply IH in H. lia.
      * reflexivity.
    + intros [<-|[]]. reflexivity.
Qed.

Lemma iterStar_class p fuel b s :
  length s <= fuel ->
  iterStar (ends (Class p)) fuel (b, s) = starEnds p b s.
Proof.
  revert b s. induction fuel as [|n IH]; intros b s Hlen.
  - destruct s; [reflexivity|simpl in Hlen; lia].
  - destruct s as [|c t]; [reflexivity|].
    simpl. destruct (p c); [|reflexivity].
    simpl. unfold remaining at 1 2. simpl snd.
    replace (length t <? length (c :: t)) with true
      by (symmetry; apply Nat.ltb_lt; simpl; lia).
    rewrite app_nil_r, IH; [reflexivity|simpl in Hlen; lia].
Qed.

Lemma ends_plus_class p b s :
  ends (Plus (Class p)) (b, s) =
  match s with
  | c :: t => if p c then starEnds p false t else []
  | [] => []
  end.
Proof.
  destruct s as [|c t]; [reflexivity|].
  simpl. destruct (p c); [|reflexivity].
  simpl. rewrite app_nil_r. apply iterStar_class. reflexivity.
Qed.

Lemma dropWhile_length p s : length (dropWhile p s) <= length s.
Proof.
  induction s as [|c t IH]; simpl; [lia|].
  destruct (p c); simpl; lia.
Qed.

Lemma starEnds_false_head p s :
  exists l, starEnds p false s = (false, dropWhile p s) :: l.
Proof.
  induction s as [|c t IH]; simpl.
  - eauto.
  - destruct (p c).
    + destruct IH as (l & ->). simpl. eauto.
    + eauto.
Qed.

Lemma collapseRuns_inRun p s :
  collapseRuns p true s = collapseRuns p false (dropWhile p s).
Proof.
  induction s as [|c t IH]; simpl; [reflexivity|].
  destruct (p c) eqn:E; [exact IH|].
  simpl. rewrite E. reflexivity.
Qed.

Lemma replaceFrom_S n r repl x :
  replaceFrom (S n) r repl x =
  match hd_error (ends r x) with
  | Some y =>
      if remaining y <? remaining x
      then repl ++ replaceFrom n r repl y
      else match snd x with
           | [] => repl
           | c :: t => repl ++ c :: replaceFrom n r repl (false, t)
           end
  | None =>
      match snd x with
      | [] => []
      | c :: t => c :: replaceFrom n r repl (false, t)
      end
  end.
Proof. reflexivity. Qed.

(** [s.replace(/[p]+/g, "-")] collapses every maximal run of [p]. *)
Lemma replaceFrom_run p fuel b s :
  length s < fuel ->
  replaceFrom fuel (Plus (Class p)) (lit "-") (b, s) = collapseRuns p false s.
Proof.
  revert b s. induction fuel as [|n IH]; intros b s Hlen; [lia|].
  rewrite replaceFrom_S, ends_plus_class.
  destruct s as [|c t]; [reflexivity|].
  simpl collapseRuns. destruct (p c) eqn:E.
  - destruct (starEnds_false_head p t) as (l & ->).
    cbn [hd_error]. unfold remaining. cbn [snd].
    pose proof (dropWhile_length p t) as Hd.
    replace (length (dropWhile p t) <? length (c :: t)) with true
      by (symmetry; apply Nat.ltb_lt; simpl; lia).
    rewrite IH by (simpl in Hlen; lia).
    rewrite collapseRuns_inRun. reflexivity.
  - cbn [hd_error snd]. rewrite IH by (simpl in Hlen; lia). reflexivity.
Qed.

Lemma replaceAll_run p s :
  replaceAll (Plus (Class p)) (lit "-") s = collapseRuns p false s.
Proof. apply replaceFrom_run. lia. Qed.

Lemma eol_after_star t :
  flat_map (ends Eol) (starEnds isHyphen false t) =
  if forallb isHyphen t then [(false, [])] else [].
Proof.
  induction t as [|c t IH]; [reflexivity|].
  simpl starEnds. simpl forallb. destruct (isHyphen c); [|reflexivity].
  rewrite flat_map_app, IH. simpl. rewrite app_nil_r. reflexivity.
Qed.

Lemma ends_edge b s :
  ends reEdgeHyphens (b, s) =
  (if b then ends (Plus (Class isHyphen)) (b, s) else [])
  ++ flat_map (ends Eol) (ends (Plus (Class isHyphen)) (b, s)).
Proof.
  unfold reEdgeHyphens.
  change (ends (Alt ?r1 ?r2) ?x) with (ends r1 x ++ ends r2 x).
  f_equal.
  change (ends (Seq Bol ?r) (b, s))
    with (flat_map (ends r) (if b then [(b, s)] else [])).
  destruct b; [|reflexivity]. cbn [flat_map]. apply app_nil_r.
Qed.

Lemma edge_at_start s :
  hd_error (ends reEdgeHyphens (true, s)) =
  match s with
  | c :: t => if isHyphen c then Some (false, dropWhile isHyphen t) else None
  | [] => None
  end.
Proof.
  rewrite ends_edge, ends_plus_class.
  destruct s as [|c t]; [reflexivity|].
  destruct (isHyphen c); [|reflexivity].
  destruct (starEnds_false_head isHyphen t) as (l & ->). reflexivity.
Qed.

Lemma edge_inside s :
  hd_error (ends reEdgeHyphens (false, s)) =
  match s with
  | c :: t => if forallb isHyphen s then Some (false, []) else None
  | [] => None
  end.
Proof.
  rewrite ends_edge, ends_plus_class. cbn [app].
  destruct s as [|c t]; [reflexivity|].
  simpl forallb. destruct (isHyphen c); [|reflexivity].
  rewrite eol_after_star. cbn [andb]. destruct (forallb isHyphen t); reflexivity.
Qed.

Lemma replaceFrom_edge_nil fuel :
  replaceFrom fuel reEdgeHyphens (lit "") (false, []) = [].
Proof. destruct fuel; reflexivity. Qed.

Lemma replaceFrom_edge_inside fuel s :
  length s < fuel ->
  replaceFrom fuel reEdgeHyphens (lit "") (false, s) = dropTrailingHyphens s.
Proof.
  revert s. induction fuel as [|n IH]; intros s Hlen; [lia|].
  rewrite replaceFrom_S, edge_inside.
  destruct s as [|c t]; [reflexivity|].
  cbn [dropTrailingHyphens]. destruct (forallb isHyphen (c :: t)).
  - unfold remaining. cbn [snd length Nat.ltb Nat.leb].
    rewrite replaceFrom_edge_nil. reflexivity.
  - cbn [snd]. rewrite IH by (simpl in Hlen; lia). reflexivity.
Qed.

(** [s.replace(/^-+|-+$/g, "")] drops the hyphens at both ends. *)
Lemma replaceAll_edge s :
  replaceAll reEdgeHyphens (lit "") s = stripEdges s.
Proof.
  unfold replaceAll, stripEdges.
  rewrite replaceFrom_S, edge_at_start.
  destruct s as [|c t]; [reflexivity|].
  cbn [dropWhile]. destruct (isHyphen c) eqn:E.
  - unfold remaining. cbn [snd].
    pose proof (dropWhile_length isHyphen t) as Hd.
    replace (length (dropWhile isHyphen t) <? length (c :: t)) with true
      by (symmetry; apply Nat.ltb_lt; simpl; lia).
    cbn [lit list_ascii_of_string map app].
    apply replaceFrom_edge_inside. simpl. lia.
  - cbn [snd]. rewrite replaceFrom_edge_inside by (simpl; lia).
    cbn [dropTrailingHyphens forallb]. rewrite E. reflexivity.
Qed.

(** The engine on a few inputs. *)

Example replace_with_empty_matches :
  replaceAll (Star (Class (fun c => (c =? 97)%N))) (lit "-") (lit "baaac") = lit "-b--c-".
Proof. reflexivity. Qed.

Example replace_edge_hyphens :
  replaceAll reEdgeHyphens (lit "") (lit "--a--b---") = lit "a--b".
Proof. reflexivity. Qed.

Example replace_only_hyphens :
  replaceAll reEdgeHyphens (lit "") (lit "---") = lit "".
Proof. reflexivity. Qed.

Example test_is_anchored :
  map isValidSlug [lit "a-b-c9"; lit "a"; lit ""; lit "-a"; lit "a-"; lit "a--b"; lit "aB";
                   lit "a b"]
  = [true; true; false; false; false; false; false; false].
Proof. reflexivity. Qed.

Section NormalizerFacts.

Variable lowerOther : jsstring -> N -> jsstring -> jsstring.

(** [generateSlug] without the regular expressions. *)
Lemma generateSlug_plain name :
  generateSlug lowerOther name =
  collapseRuns isHyphen false
    (stripEdges (collapseRuns notLowerAlnum false (toLowerCase lowerOther name))).
Proof.
  unfold generateSlug, reHyphenRun, reNonAlnumRun.
  rewrite !replaceAll_run, replaceAll_edge. reflexivity.
Qed.

End NormalizerFacts.

Example generateSlug_hello_world :
  generateSlug idLower (lit "  --Hello,   World--  ") = lit "hello-world".
Proof. reflexivity. Qed.

(** U+0130 followed by "stanbul": the combining dot left by the lowercase
    mapping is replaced like any other character outside [[a-z0-9]]. *)
Example generateSlug_dotted_capital_i :
  generateSlug idLower (304%N :: lit "stanbul") = lit "i-stanbul".
Proof. reflexivity. Qed.

(** ** [isValidSlug] read left to right *)

Lemma nonempty_flat_map (A B : Type) (f : A -> list B) (l : list A) :
  (match flat_map f l with [] => false | _ :: _ => true end) =
  existsb (fun a => match f a with [] => false | _ :: _ => true end) l.
Proof.
  induction l as [|a l IH]; [reflexivity|].
  simpl. destruct (f a); [exact IH|reflexivity].
Qed.

Lemma alnum_not_hyphen c : isLowerAlnum c = true -> isHyphen c = false.
Proof.
  unfold isLowerAlnum, isHyphen, inRange. intros H.
  apply N.eqb_neq. intros ->. discriminate H.
Qed.

Lemma hyphen_is_45 c : isHyphen c = true -> c = 45%N.
Proof. apply N.eqb_eq. Qed.

Lemma scan_after_run (g : subject -> bool) v :
  (forall b s, length s <= length v -> g (b, s) = hyphenTail s) ->
  existsb g (starEnds isLowerAlnum false v) = scanSlug true v.
Proof.
  induction v as [|c t IH]; intros Hg.
  - simpl. rewrite Hg by reflexivity. reflexivity.
  - simpl starEnds. simpl scanSlug. destruct (isLowerAlnum c) eqn:E.
    + rewrite existsb_app, IH by (intros; apply Hg; simpl; lia).
      simpl. rewrite Hg by reflexivity. simpl.
      rewrite (alnum_not_hyphen _ E). simpl. rewrite !orb_false_r. reflexivity.
    + simpl. rewrite Hg by reflexivity. simpl. rewrite orb_false_r.
      destruct (isHyphen c); reflexivity.
Qed.

Lemma existsb_flat_map (A B : Type) (g : B -> bool) (f : A -> list B) (l : list A) :
  existsb g (flat_map f l) = existsb (fun a => existsb g (f a)) l.
Proof.
  induction l as [|a l IH]; [reflexivity|].
  simpl. rewrite existsb_app, IH. reflexivity.
Qed.

Lemma ends_seq r1 r2 x : ends (Seq r1 r2) x = flat_map (ends r2) (ends r1 x).
Proof. reflexivity. Qed.

Lemma ends_class p b s :
  ends (Class p) (b, s) =
  match s with
  | c :: t => if p c then [(false, t)] else []
  | [] => []
  end.
Proof. reflexivity. Qed.

Lemma ends_hyphenSegment b s :
  ends hyphenSegment (b, s) =
  match s with
  | h :: c :: v =>
      if isHyphen h && isLowerAlnum c then starEnds isLowerAlnum false v else []
  | _ => []
  end.
Proof.
  unfold hyphenSegment. rewrite ends_seq, ends_class.
  destruct s as [|h u]; [reflexivity|].
  destruct (isHyphen h); [|destruct u; reflexivity].
  cbn [flat_map]. rewrite app_nil_r, ends_plus_class.
  destruct u as [|c v]; reflexivity.
Qed.

Lemma iterStar_hyphenSegment n b s :
  length s <= n ->
  existsb atEnd (iterStar (ends hyphenSegment) n (b, s)) = hyphenTail s.
Proof.
  revert b s. induction n as [|n IH]; intros b s Hlen.
  - destruct s; [reflexivity|simpl in Hlen; lia].
  - cbn [iterStar]. rewrite existsb_app, ends_hyphenSegment.
    destruct s as [|h u]; [reflexivity|].
    destruct u as [|c v].
    + simpl. destruct (isHyphen h); reflexivity.
    + cbn [hyphenTail scanSlug].
      destruct (isHyphen h) eqn:Eh; [|reflexivity].
      destruct (isLowerAlnum c) eqn:Ec; [|simpl; destruct (isHyphen c); reflexivity].
      cbn [andb].
      rewrite flat_map_guard.
      * rewrite existsb_flat_map. cbn [existsb atEnd ends snd]. rewrite orb_false_r.
        apply scan_after_run. intros b' s' Hs'. apply IH. simpl in Hlen. lia.
      * intros y Hy. apply starEnds_remaining in Hy.
        apply Nat.ltb_lt. unfold remaining at 2. simpl. lia.
Qed.

Lemma ends_slugRegex b s :
  ends slugRegex (b, s) =
  if b then
    flat_map
      (fun y => flat_map (ends Eol) (iterStar (ends hyphenSegment) (remaining y) y))
      (ends (Plus (Class isLowerAlnum)) (b, s))
  else [].
Proof.
  unfold slugRegex. rewrite ends_seq. cbn [ends fst].
  destruct b; [|reflexivity].
  cbn [flat_map]. rewrite app_nil_r. reflexivity.
Qed.

Lemma after_first_segment y :
  (match flat_map (ends Eol) (iterStar (ends hyphenSegment) (remaining y) y) with
   | [] => false
   | _ :: _ => true
   end) = hyphenTail (snd y).
Proof.
  rewrite nonempty_flat_map. destruct y as [b s].
  apply (iterStar_hyphenSegment b s (n := remaining (b, s))). reflexivity.
Qed.

Lemma testFrom_slugRegex_inside s : testFrom slugRegex false s = false.
Proof.
  induction s as [|c t IH].
  - reflexivity.
  - cbn [testFrom]. rewrite ends_slugRegex. exact IH.
Qed.

(** The regular expression test and the left-to-right scan agree. *)
Lemma isValidSlug_scan s : isValidSlug s = scanSlug false s.
Proof.
  unfold isValidSlug, regex_test.
  assert (H : (match ends slugRegex (true, s) with [] => false | _ :: _ => true end)
              = scanSlug false s).
  { rewrite ends_slugRegex, nonempty_flat_map, ends_plus_class.
    destruct s as [|c t]; [reflexivity|].
    cbn [scanSlug]. destruct (isLowerAlnum c) eqn:Ec.
    - apply scan_after_run. intros b s _.
      apply (after_first_segment (b, s)).
    - simpl. destruct (isHyphen c); reflexivity. }
  destruct s as [|c t].
  - cbn [testFrom]. rewrite <- H. destruct (ends slugRegex (true, [])); reflexivity.
  - cbn [testFrom]. rewrite <- H, testFrom_slugRegex_inside.
    destruct (ends slugRegex (true, c :: t)); reflexivity.
Qed.

(** ** The scan and the grammar in words *)

Lemma joinHyphen_cons seg segs :
  joinHyphen (seg :: segs) = seg ++ hyphenated segs.
Proof.
  revert seg. induction segs as [|s' segs IH]; intros seg.
  - simpl. rewrite app_nil_r. reflexivity.
  - change (joinHyphen (seg :: s' :: segs)) with (seg ++ 45%N :: joinHyphen (s' :: segs)).
    rewrite IH. reflexivity.
Qed.

Lemma scan_segments s :
  (scanSlug true s = true ->
   exists seg0 segs, forallb isLowerAlnum seg0 = true /\ Forall isSegment segs /\
                     s = seg0 ++ hyphenated segs) /\
  (scanSlug false s = true ->
   exists seg segs, isSegment seg /\ Forall isSegment segs /\
                    s = seg ++ hyphenated segs).
Proof.
  induction s as [|c t [IHt IHf]].
  - split; [|discriminate]. intros _. exists [], []. repeat split. constructor.
  - cbn [scanSlug]. destruct (isLowerAlnum c) eqn:Ec.
    + assert (forall (H : scanSlug true t = true),
                 exists seg0 segs, forallb isLowerAlnum (c :: seg0) = true /\
                                   Forall isSegment segs /\
                                   c :: t = (c :: seg0) ++ hyphenated segs) as K.
      { intros H. destruct (IHt H) as (seg0 & segs & H0 & Hs & ->).
        exists seg0, segs. simpl. rewrite Ec, H0. repeat split. exact Hs. }
      split; intros H; destruct (K H) as (seg0 & segs & H0 & Hs & E).
      * exists (c :: seg0), segs. repeat split; assumption.
      * exists (c :: seg0), segs. repeat split; try assumption. discriminate.
    + destruct (isHyphen c) eqn:Eh; [|split; discriminate].
      split; [|discriminate]. cbn [andb]. intros H.
      destruct (IHf H) as (seg & segs & Hseg & Hs & ->).
      exists [], (seg :: segs). repeat split.
      * constructor; assumption.
      * apply hyphen_is_45 in Eh. subst c. reflexivity.
Qed.

Lemma scan_app_segment b seg r :
  isSegment seg -> scanSlug b (seg ++ r) = scanSlug true r.
Proof.
  intros [Hne Hall]. revert b. induction seg as [|c seg IH]; intros b; [contradiction|].
  simpl in Hall. apply andb_prop in Hall as [Hc Hall].
  cbn [app scanSlug]. rewrite Hc.
  destruct seg as [|c' seg']; [reflexivity|].
  apply IH; [discriminate|exact Hall].
Qed.

Lemma scan_hyphenated segs :
  Forall isSegment segs -> scanSlug true (hyphenated segs) = true.
Proof.
  induction 1 as [|seg segs Hseg _ IH]; [reflexivity|].
  unfold hyphenated. cbn [flat_map]. fold (hyphenated segs).
  change ((45%N :: seg) ++ hyphenated segs) with (45%N :: (seg ++ hyphenated segs)).
  cbn [scanSlug]. change (isLowerAlnum 45) with false. change (isHyphen 45) with true.
  cbn [andb]. rewrite scan_app_segment by exact Hseg. exact IH.
Qed.

Lemma scan_grammar s : scanSlug false s = true <-> slugGrammar s.
Proof.
  split.
  - intros H. destruct (proj2 (scan_segments s) H) as (seg & segs & Hseg & Hs & ->).
    exists (seg :: segs). split; [discriminate|]. split.
    + constructor; assumption.
    + symmetry. apply joinHyphen_cons.
  - intros (segs & Hne & Hall & ->).
    destruct segs as [|seg segs]; [contradiction|].
    inversion Hall as [|? ? Hseg Hs]; subst.
    rewrite joinHyphen_cons, scan_app_segment by exact Hseg.
    apply scan_hyphenated. exact Hs.
Qed.

(** ** What the scan rejects *)

Lemma upper_not_slugChar c : isUpper c = true -> isLowerAlnum c = false /\ isHyphen c = false.
Proof.
  unfold isUpper, isLowerAlnum, isHyphen, inRange.
  intros H. apply andb_prop in H as [H1 H2].
  apply N.leb_le in H1. apply N.leb_le in H2.
  split.
  - apply orb_false_iff. split; apply andb_false_iff.
    + left. apply N.leb_gt. lia.
    + right. apply N.leb_gt. lia.
  - apply N.eqb_neq. lia.
Qed.

Lemma scan_uppercase b s : hasUppercase s = true -> scanSlug b s = false.
Proof.
  unfold hasUppercase. revert b. induction s as [|c t IH]; intros b H; [discriminate|].
  simpl in H. cbn [scanSlug]. destruct (isUpper c) eqn:Eu.
  - destruct (upper_not_slugChar _ Eu) as [-> ->]. reflexivity.
  - simpl in H. rewrite !(IH _ H).
    destruct (isLowerAlnum c); [reflexivity|].
    destruct (isHyphen c); [apply andb_false_r|reflexivity].
Qed.

Lemma scan_leadingHyphen s : leadingHyphen s = true -> scanSlug false s = false.
Proof.
  destruct s as [|c t]; [discriminate|]. simpl. intros H.
  destruct (isLowerAlnum c) eqn:Ec.
  - rewrite (alnum_not_hyphen _ Ec) in H. discriminate.
  - rewrite H. reflexivity.
Qed.

Lemma scan_snoc_hyphen b s c : isHyphen c = true -> scanSlug b (s ++ [c]) = false.
Proof.
  intros H. revert b. induction s as [|c' s IH]; intros b.
  - simpl. rewrite H.
    destruct (isLowerAlnum c) eqn:Ec; [|apply andb_false_r].
    rewrite (alnum_not_hyphen _ Ec) in H. discriminate.
  - cbn [app scanSlug]. rewrite !IH.
    destruct (isLowerAlnum c'); [reflexivity|].
    destruct (isHyphen c'); [apply andb_false_r|reflexivity].
Qed.

Lemma scan_trailingHyphen b s : trailingHyphen s = true -> scanSlug b s = false.
Proof.
  unfold trailingHyphen. intros H.
  destruct (rev s) as [|c l] eqn:E; [discriminate|].
  apply (f_equal (@rev N)) in E. rewrite rev_involutive in E. subst s.
  simpl. apply scan_snoc_hyphen. exact H.
Qed.

Lemma scan_doubledHyphen b s : doubledHyphen s = true -> scanSlug b s = false.
Proof.
  revert b. induction s as [|c t IH]; intros b H; [discriminate|].
  cbn [doubledHyphen] in H. cbn [scanSlug].
  apply orb_prop in H as [H|H].
  - apply andb_prop in H as [Hc Ht]. rewrite Hc.
    rewrite (scan_leadingHyphen _ Ht).
    destruct (isLowerAlnum c) eqn:Ec; [|apply andb_false_r].
    rewrite (alnum_not_hyphen _ Ec) in Hc. discriminate.
  - rewrite !(IH _ H).
    destruct (isLowerAlnum c); [reflexivity|].
    destruct (isHyphen c); [apply andb_false_r|reflexivity].
Qed.

Lemma scan_chars b s : scanSlug b s = true -> forallb isSlugChar s = true.
Proof.
  revert b. induction s as [|c t IH]; intros b H; [reflexivity|].
  cbn [scanSlug] in H. cbn [forallb]. unfold isSlugChar at 1.
  destruct (isLowerAlnum c).
  - simpl. exact (IH _ H).
  - destruct (isHyphen c); [|discriminate].
    apply andb_prop in H as [_ H]. simpl. exact (IH _ H).
Qed.

(** ** The three replacements, one after the other *)

Lemma slugChar_cases c :
  isSlugChar c = true -> notLowerAlnum c = isHyphen c.
Proof.
  unfold isSlugChar, notLowerAlnum. destruct (isLowerAlnum c) eqn:Ec.
  - intros _. rewrite (alnum_not_hyphen _ Ec). reflexivity.
  - simpl. intros ->. reflexivity.
Qed.

(** After the first replacement only slug characters are left, and no two
    hyphens stand side by side. *)
Lemma collapse_nonAlnum_shape b s :
  forallb isSlugChar (collapseRuns notLowerAlnum b s) = true /\
  doubledHyphen (collapseRuns notLowerAlnum b s) = false /\
  (b = true -> leadingHyphen (collapseRuns notLowerAlnum b s) = false).
Proof.
  revert b. induction s as [|c t IH]; intros b; [repeat split|].
  cbn [collapseRuns].
  assert (En : notLowerAlnum c = negb (isLowerAlnum c)) by reflexivity.
  destruct (isLowerAlnum c) eqn:Ec; cbn [negb] in En; rewrite En.
  - destruct (IH false) as (H1 & H2 & _).
    cbn [forallb doubledHyphen leadingHyphen]. unfold isSlugChar at 1.
    rewrite Ec, H1, H2, (alnum_not_hyphen _ Ec). repeat split.
  - destruct (IH true) as (H1 & H2 & H3). destruct b.
    + repeat split; auto.
    + cbn [forallb doubledHyphen]. rewrite H1, H2, (H3 eq_refl).
      repeat split. discriminate.
Qed.

Lemma dropWhile_shape s :
  forallb isSlugChar s = true -> doubledHyphen s = false ->
  forallb isSlugChar (dropWhile isHyphen s) = true /\
  doubledHyphen (dropWhile isHyphen s) = false /\
  leadingHyphen (dropWhile isHyphen s) = false.
Proof.
  induction s as [|c t IH]; intros H1 H2; [repeat split|].
  cbn [dropWhile]. destruct (isHyphen c) eqn:Eh.
  - cbn [forallb] in H1. apply andb_prop in H1 as [_ H1].
    cbn [doubledHyphen] in H2. apply orb_false_iff in H2 as [_ H2].
    apply IH; assumption.
  - repeat split; assumption.
Qed.

Lemma dropTrailing_nil s : dropTrailingHyphens s = [] -> forallb isHyphen s = true.
Proof.
  destruct s as [|c t]; [reflexivity|].
  cbn [dropTrailingHyphens]. destruct (forallb isHyphen (c :: t)); [reflexivity|discriminate].
Qed.

(** Dropping the trailing hyphens of such a string leaves a slug, or
    nothing. *)
Lemma dropTrailing_scan s :
  forallb isSlugChar s = true -> doubledHyphen s = false ->
  scanSlug true (dropTrailingHyphens s) = true /\
  (leadingHyphen s = false ->
   scanSlug false (dropTrailingHyphens s) = true \/ dropTrailingHyphens s = []).
Proof.
  induction s as [|c t IH]; intros H1 H2; [split; auto|].
  cbn [forallb] in H1. apply andb_prop in H1 as [Hc H1].
  cbn [doubledHyphen] in H2. apply orb_false_iff in H2 as [Hcc H2].
  destruct (IH H1 H2) as [IHt IHf].
  cbn [dropTrailingHyphens]. destruct (forallb isHyphen (c :: t)) eqn:Eall; [split; auto|].
  cbn [scanSlug leadingHyphen]. unfold isSlugChar in Hc.
  destruct (isLowerAlnum c) eqn:Ec; [split; auto|].
  simpl in Hc. rewrite Hc in *. cbn [andb] in *.
  split; [|discriminate].
  destruct (IHf Hcc) as [H|H]; [exact H|].
  apply dropTrailing_nil in H. cbn [forallb] in Eall.
  rewrite Hc, H in Eall. discriminate.
Qed.

Lemma collapse_hyphen_id s :
  doubledHyphen s = false ->
  collapseRuns isHyphen false s = s /\
  (leadingHyphen s = false -> collapseRuns isHyphen true s = s).
Proof.
  induction s as [|c t IH]; intros H; [split; auto|].
  cbn [doubledHyphen] in H. apply orb_false_iff in H as [Hcc H].
  destruct (IH H) as [IHf IHt].
  cbn [collapseRuns leadingHyphen]. destruct (isHyphen c) eqn:Eh.
  - split; [|discriminate]. cbn [andb] in Hcc.
    rewrite (IHt Hcc). apply hyphen_is_45 in Eh. subst c. reflexivity.
  - rewrite IHf. split; auto.
Qed.

Lemma collapse_ext p q b s :
  (forall c, In c s -> p c = q c) ->
  collapseRuns p b s = collapseRuns q b s.
Proof.
  revert b. induction s as [|c t IH]; intros b H; [reflexivity|].
  cbn [collapseRuns]. rewrite (H c (or_introl eq_refl)).
  rewrite !IH by (intros; apply H; right; assumption). reflexivity.
Qed.

Lemma dropTrailing_id b s : scanSlug b s = true -> dropTrailingHyphens s = s.
Proof.
  revert b. induction s as [|c t IH]; intros b H; [reflexivity|].
  cbn [dropTrailingHyphens].
  destruct (forallb isHyphen (c :: t)) eqn:Eall.
  - assert (L : trailingHyphen (c :: t) = true).
    { unfold trailingHyphen.
      assert (R : forallb isHyphen (rev (c :: t)) = true).
      { apply forallb_forall. intros x Hx. apply in_rev in Hx.
        rewrite forallb_forall in Eall. apply Eall. exact Hx. }
      destruct (rev (c :: t)) as [|x l] eqn:E.
      - apply (f_equal (@length N)) in E. rewrite length_rev in E. discriminate.
      - simpl in R. apply andb_prop in R as [R _]. exact R. }
    rewrite (scan_trailingHyphen b _ L) in H. discriminate.
  - f_equal. cbn [scanSlug] in H.
    destruct (isLowerAlnum c); [exact (IH _ H)|].
    destruct (isHyphen c); [|discriminate].
    apply andb_prop in H as [_ H]. exact (IH _ H).
Qed.

(** Units that are neither [[a-z0-9]] are only hyphens in what is left, so
    the number of alphanumeric units decides emptiness. *)
Lemma collapse_alnum p b s :
  (forall c, p c = true -> isLowerAlnum c = false) ->
  existsb isLowerAlnum (collapseRuns p b s) = existsb isLowerAlnum s.
Proof.
  intros Hp. revert b. induction s as [|c t IH]; intros b; [reflexivity|].
  cbn [collapseRuns existsb]. destruct (p c) eqn:E.
  - rewrite (Hp _ E). destruct b; cbn [existsb orb]; apply IH.
  - cbn [existsb]. rewrite IH. reflexivity.
Qed.

Lemma hyphen_not_alnum c : isHyphen c = true -> isLowerAlnum c = false.
Proof.
  intros H. destruct (isLowerAlnum c) eqn:E; [|reflexivity].
  rewrite (alnum_not_hyphen _ E) in H. discriminate.
Qed.

Lemma dropWhile_alnum s :
  existsb isLowerAlnum (dropWhile isHyphen s) = existsb isLowerAlnum s.
Proof.
  induction s as [|c t IH]; [reflexivity|].
  cbn [dropWhile]. destruct (isHyphen c) eqn:E; [|reflexivity].
  cbn [existsb]. rewrite (hyphen_not_alnum _ E). exact IH.
Qed.

Lemma dropTrailing_alnum s :
  existsb isLowerAlnum (dropTrailingHyphens s) = existsb isLowerAlnum s.
Proof.
  induction s as [|c t IH]; [reflexivity|].
  cbn [dropTrailingHyphens]. destruct (forallb isHyphen (c :: t)) eqn:E.
  - symmetry. apply not_true_is_false. intros H.
    apply existsb_exists in H as (x & Hx & Ax).
    rewrite forallb_forall in E. apply E in Hx.
    rewrite (hyphen_not_alnum _ Hx) in Ax. discriminate.
  - cbn [existsb]. rewrite IH. reflexivity.
Qed.

(** ** Lowercasing *)

Section LowerCaseFacts.

Variable lowerOther : jsstring -> N -> jsstring -> jsstring.

Lemma lowerUnit_slugChar before c after :
  isSlugChar c = true -> lowerUnit lowerOther before c after = [c].
Proof. intros H. unfold lowerUnit. unit_cases. Qed.

Lemma lowerFrom_slugChars before s :
  forallb isSlugChar s = true -> lowerFrom lowerOther before s = s.
Proof.
  revert before. induction s as [|c t IH]; intros before H; [reflexivity|].
  cbn [forallb] in H. apply andb_prop in H as [Hc H].
  cbn [lowerFrom]. rewrite lowerUnit_slugChar, IH by assumption. reflexivity.
Qed.

Lemma lowerUnit_latin1 before c after :
  (c < 256)%N ->
  exists c', lowerUnit lowerOther before c after = [c'] /\
             isLowerAlnum c' = isAsciiAlnum c.
Proof.
  intros H. unfold lowerUnit.
  destruct (N.ltb_spec c 128).
  - eexists. split; [reflexivity|]. unit_cases.
  - destruct (N.ltb_spec c 256); [|lia].
    eexists. split; [reflexivity|]. unit_cases.
Qed.

Lemma lowerFrom_latin1 before s :
  Forall (fun c => (c < 256)%N) s ->
  existsb isLowerAlnum (lowerFrom lowerOther before s) = existsb isAsciiAlnum s.
Proof.
  intros H. revert before. induction H as [|c t Hc _ IH]; intros before; [reflexivity|].
  cbn [lowerFrom existsb].
  destruct (lowerUnit_latin1 before t Hc) as (c' & -> & E).
  cbn [app existsb]. rewrite E, IH. reflexivity.
Qed.

Lemma lit_latin1 s : Forall (fun c => (c < 256)%N) (lit s).
Proof.
  unfold lit. induction s as [|a s IH]; [constructor|].
  cbn [list_ascii_of_string map]. constructor; [apply N_ascii_bounded|exact IH].
Qed.

(** ** What [generateSlug] returns *)

Lemma generateSlug_alnum name :
  existsb isLowerAlnum (generateSlug lowerOther name) =
  existsb isLowerAlnum (toLowerCase lowerOther name).
Proof.
  rewrite generateSlug_plain. unfold stripEdges.
  rewrite collapse_alnum by apply hyphen_not_alnum.
  rewrite dropTrailing_alnum, dropWhile_alnum.
  apply collapse_alnum. intros c H. unfold notLowerAlnum in H.
  destruct (isLowerAlnum c); [discriminate|reflexivity].
Qed.

Lemma generateSlug_scan name :
  scanSlug false (generateSlug lowerOther name) = true \/
  generateSlug lowerOther name = [].
Proof.
  rewrite generateSlug_plain. unfold stripEdges.
  destruct (collapse_nonAlnum_shape false (toLowerCase lowerOther name)) as (U1 & U2 & _).
  destruct (dropWhile_shape _ U1 U2) as (V1 & V2 & V3).
  destruct (dropTrailing_scan _ V1 V2) as [_ W].
  destruct (W V3) as [H|H].
  - left. destruct (collapse_hyphen_id (dropTrailingHyphens
      (dropWhile isHyphen (collapseRuns notLowerAlnum false (toLowerCase lowerOther name)))))
      as [-> _]; [|exact H].
    apply not_true_is_false. intros D.
    rewrite (scan_doubledHyphen false _ D) in H. discriminate.
  - right. rewrite H. reflexivity.
Qed.

Lemma dropWhile_id s : leadingHyphen s = false -> dropWhile isHyphen s = s.
Proof. destruct s as [|c t]; [reflexivity|]. simpl. intros ->. reflexivity. Qed.

(** A slug is left as it is. *)
Lemma generateSlug_fixed s :
  scanSlug false s = true -> generateSlug lowerOther s = s.
Proof.
  intros H. rewrite generateSlug_plain. unfold toLowerCase, stripEdges.
  pose proof (scan_chars _ _ H) as Hc.
  assert (Hd : doubledHyphen s = false).
  { apply not_true_is_false. intros D.
    rewrite (scan_doubledHyphen false _ D) in H. discriminate. }
  assert (Hl : leadingHyphen s = false).
  { apply not_true_is_false. intros D.
    rewrite (scan_leadingHyphen _ D) in H. discriminate. }
  rewrite lowerFrom_slugChars by exact Hc.
  rewrite (collapse_ext notLowerAlnum isHyphen).
  - destruct (collapse_hyphen_id _ Hd) as [-> _].
    rewrite dropWhile_id by exact Hl.
    rewrite (dropTrailing_id _ _ H).
    destruct (collapse_hyphen_id _ Hd) as [-> _]. reflexivity.
  - intros c Hin. apply slugChar_cases.
    rewrite forallb_forall in Hc. apply Hc. exact Hin.
Qed.

Lemma generateSlug_empty_iff name :
  generateSlug lowerOther name = [] <-> hasAlphanumeric lowerOther name = false.
Proof.
  unfold hasAlphanumeric. rewrite <- generateSlug_alnum.
  destruct (generateSlug_scan name) as [H|H].
  - destruct (generateSlug lowerOther name) as [|c t]; [discriminate|].
    cbn [scanSlug] in H. cbn [existsb].
    destruct (isLowerAlnum c).
    + split; discriminate.
    + destruct (isHyphen c); discriminate.
  - rewrite H. split; reflexivity.
Qed.

End LowerCaseFacts.

(** ** The normalizer and the validator *)

(** C7. Normalizing twice gives what normalizing once gives, for every
    string and whatever the engine's lowercase table is outside the code
    units written out in [lowerUnit]. *)
Theorem generateSlug_idempotent
    (lowerOther : jsstring -> N -> jsstring -> jsstring) (x : jsstring) :
  generateSlug lowerOther (generateSlug lowerOther x) = generateSlug lowerOther x.
Proof.
  destruct (generateSlug_scan lowerOther x) as [H|H].
  - apply generateSlug_fixed. exact H.
  - rewrite H. reflexivity.
Qed.

(** C8, as stated, at the Kelvin sign U+212A: the string holds no character
    of [[A-Za-z0-9]], and its slug is "k", not the empty string.  (Counting
    every letter as alphanumeric does not help: the slug of "é", U+00E9, is
    empty.) *)
Lemma generateSlug_kelvin_sign_not_empty :
  ~ (generateSlug idLower [8490%N] = [] <-> existsb isAsciiAlnum [8490%N] = false) /\
  generateSlug idLower [233%N] = [].
Proof.
  split; [|reflexivity].
  intros [_ H]. specialize (H eq_refl). vm_compute in H. discriminate H.
Qed.

(** C8, amended. The slug of every string is valid or empty.  It is empty
    exactly when the lowercased string holds no character of [[a-z0-9]];
    for a string of Basic Latin and Latin-1 characters that is exactly when
    the string holds no ASCII letter or digit (so "é" alone gives the empty
    slug).  "My Button!!" gives "my-button"; "" and "***" give "". *)
Theorem generateSlug_valid_or_empty
    (lowerOther : jsstring -> N -> jsstring -> jsstring) (x : jsstring) :
  (isValidSlug (generateSlug lowerOther x) = true \/ generateSlug lowerOther x = []) /\
  (generateSlug lowerOther x = [] <-> hasAlphanumeric lowerOther x = false) /\
  (forall s : string,
      generateSlug lowerOther (lit s) = [] <-> existsb isAsciiAlnum (lit s) = false) /\
  generateSlug lowerOther [233%N] = [] /\
  generateSlug lowerOther (lit "My Button!!") = lit "my-button" /\
  generateSlug lowerOther (lit "") = lit "" /\
  generateSlug lowerOther (lit "***") = lit "".
Proof.
  split; [|split; [|split]].
  - rewrite isValidSlug_scan. apply generateSlug_scan.
  - apply generateSlug_empty_iff.
  - intros s. rewrite generateSlug_empty_iff. unfold hasAlphanumeric, toLowerCase.
    rewrite lowerFrom_latin1 by apply lit_latin1. reflexivity.
  - repeat split; vm_compute; reflexivity.
Qed.

(** C9. [isValidSlug] answers true exactly for the strings made of
    non-empty segments of [[a-z0-9]] separated by single hyphens, which is
    what [/^[a-z0-9]+(?:-[a-z0-9]+)*$/] matches; it answers false for a
    string with an uppercase letter, with a hyphen in front or at the end,
    or with two hyphens side by side. *)
Theorem isValidSlug_grammar (s : jsstring) :
  (isValidSlug s = true <-> slugGrammar s) /\
  (hasUppercase s = true -> isValidSlug s = false) /\
  (leadingHyphen s = true -> isValidSlug s = false) /\
  (trailingHyphen s = true -> isValidSlug s = false) /\
  (doubledHyphen s = true -> isValidSlug s = false).
Proof.
  rewrite isValidSlug_scan. repeat split.
  - apply scan_grammar.
  - apply scan_grammar.
  - apply scan_uppercase.
  - apply scan_leadingHyphen.
  - apply scan_trailingHyphen.
  - apply scan_doubledHyphen.
Qed.

(** ** Running the hook's functions *)

Lemma run_bind (A B : Type) client (p : Prog A) (f : A -> Prog B) w :
  run client (bind p f) w =
  run client (f (fst (run client p w))) (snd (run client p w)).
Proof.
  revert w. induction p as [a|slug k IH|msg k IH|v k IH|v k IH|v k IH]; intros w;
    cbn [bind run]; try apply IH.
  reflexivity.
Qed.

Lemma reportsFree_spec r :
  reportsFree r = true <-> error r = None /\ data r = Some [].
Proof.
  unfold reportsFree, dataIsEmpty.
  destruct (error r); [split; [discriminate|intros [H _]; discriminate]|].
  destruct (data r) as [[|? ?]|]; split; try discriminate; auto;
    intros [_ H]; discriminate.
Qed.

Lemma reportsFree_not_existing r :
  reportsFree r = true -> reportsExisting r = false.
Proof.
  intros H. apply reportsFree_spec in H as [He Hd].
  unfold reportsExisting. rewrite He, Hd. reflexivity.
Qed.

Lemma run_uniqueAnswer client r w :
  run client (uniqueAnswer r) w =
  (reportsFree r,
   match error r with
   | Some _ => logConsole (lit "Error checking slug uniqueness:") w
   | None => w
   end).
Proof. unfold uniqueAnswer, reportsFree. destruct (error r); reflexivity. Qed.

Lemma run_checkSlugUnique client slug w :
  run client (checkSlugUnique slug) w =
  (reportsFree (client (length (queries w)) slug), answered client slug w).
Proof.
  unfold checkSlugUnique, select. cbn [bind run].
  rewrite run_uniqueAnswer. unfold answered.
  destruct (error (client (length (queries w)) slug)); reflexivity.
Qed.

Lemma answered_queries client slug w :
  queries (answered client slug w) = queries w ++ [slug].
Proof. unfold answered. destruct (error _); reflexivity. Qed.

Lemma answered_atoms client slug w : atoms (answered client slug w) = atoms w.
Proof. unfold answered. destruct (error _); reflexivity. Qed.

Section ResolverFacts.

Variable lowerOther : jsstring -> N -> jsstring -> jsstring.
Variable client : Client.
Variable baseName : jsstring.

Lemma run_loopBody v w i :
  suffix v = N.of_nat (S i) ->
  run client (loopBody lowerOther baseName v) w =
  ({| newSlug := candidate (generateSlug lowerOther baseName) (S i);
      isUnique := reportsFree (client (length (queries w))
                    (candidate (generateSlug lowerOther baseName) (S i)));
      suffix := N.of_nat (S (S i)) |},
   answered client (candidate (generateSlug lowerOther baseName) (S i)) w).
Proof.
  intros Hs. unfold loopBody. rewrite run_bind, run_checkSlugUnique.
  cbn [fst snd run]. rewrite Hs.
  replace (N.of_nat (S i) + 1)%N with (N.of_nat (S (S i))) by lia.
  reflexivity.
Qed.

(** The loop, from the state in which candidate [i] has just been asked. *)
Lemma while_trace fuel : forall i v w q0,
  newSlug v = candidate (generateSlug lowerOther baseName) i ->
  suffix v = N.of_nat (S i) ->
  isUnique v = freeAt lowerOther client baseName q0 i ->
  length (queries w) = q0 + S i ->
  exists n,
    i <= n /\ n <= i + fuel /\
    queries (snd (run client (whileNotUnique lowerOther fuel baseName v) w)) =
      queries w ++ map (candidate (generateSlug lowerOther baseName)) (seq (S i) (n - i)) /\
    atoms (snd (run client (whileNotUnique lowerOther fuel baseName v) w)) = atoms w /\
    (forall j, i <= j -> j < n -> freeAt lowerOther client baseName q0 j = false) /\
    match fst (run client (whileNotUnique lowerOther fuel baseName v) w) with
    | Some c => c = candidate (generateSlug lowerOther baseName) n /\ freeAt lowerOther client baseName q0 n = true
    | None => n = i + fuel /\ freeAt lowerOther client baseName q0 n = false
    end.
Proof.
  induction fuel as [|fuel IH]; intros i v w q0 Hn Hs Hu Hq.
  - exists i. cbn [whileNotUnique]. rewrite Hu.
    destruct (freeAt lowerOther client baseName q0 i) eqn:E; cbn [run fst snd];
      rewrite Nat.sub_diag, app_nil_r;
      repeat split; try lia; try assumption; intros; lia.
  - cbn [whileNotUnique]. rewrite Hu. destruct (freeAt lowerOther client baseName q0 i) eqn:E.
    + exists i. cbn [run fst snd]. rewrite Nat.sub_diag, app_nil_r.
      repeat split; try lia; try assumption; intros; lia.
    + rewrite run_bind, (run_loopBody v w Hs). cbn [fst snd].
      match goal with
      | |- context [run client (whileNotUnique _ fuel _ ?v1) ?w1] =>
          destruct (IH (S i) v1 w1 q0) as (n & H1 & H2 & H3 & H4 & H5 & H6)
      end.
      * reflexivity.
      * reflexivity.
      * cbn [isUnique]. unfold freeAt. rewrite Hq. reflexivity.
      * rewrite answered_queries, length_app. simpl. lia.
      * exists n. rewrite H3, H4, answered_queries, answered_atoms.
        repeat split; try lia.
        -- rewrite <- app_assoc. f_equal.
           replace (n - i) with (S (n - S i)) by lia. reflexivity.
        -- intros j Hj1 Hj2. destruct (Nat.eq_dec j i) as [->|Hne]; [exact E|].
           apply H5; lia.
        -- destruct (fst _); [exact H6|].
           destruct H6 as [-> H6]. split; [lia|exact H6].
Qed.

(** The whole function: the candidates asked, in order, and the outcome. *)
Lemma resolver_trace fuel w :
  exists n,
    n <= fuel /\
    queries (snd (run client (generateUniqueSlug lowerOther fuel baseName) w)) =
      queries w ++ map (candidate (generateSlug lowerOther baseName)) (seq 0 (S n)) /\
    atoms (snd (run client (generateUniqueSlug lowerOther fuel baseName) w)) = atoms w /\
    (forall j, j < n -> freeAt lowerOther client baseName (length (queries w)) j = false) /\
    match fst (run client (generateUniqueSlug lowerOther fuel baseName) w) with
    | Some c => c = candidate (generateSlug lowerOther baseName) n /\
                freeAt lowerOther client baseName (length (queries w)) n = true
    | None => n = fuel /\ freeAt lowerOther client baseName (length (queries w)) n = false
    end.
Proof.
  unfold generateUniqueSlug, loopEntry.
  rewrite run_bind, run_bind, run_checkSlugUnique. cbn [fst snd run].
  match goal with
  | |- context [run client (whileNotUnique _ fuel _ ?v1) ?w1] =>
      destruct (@while_trace fuel 0 v1 w1 (length (queries w)))
        as (n & H1 & H2 & H3 & H4 & H5 & H6)
  end.
  - reflexivity.
  - reflexivity.
  - cbn [isUnique]. unfold freeAt. rewrite Nat.add_0_r. reflexivity.
  - rewrite answered_queries, length_app. simpl. lia.
  - exists n. rewrite H3, H4, answered_queries, answered_atoms.
    repeat split; try lia.
    + rewrite <- app_assoc, Nat.sub_0_r. reflexivity.
    + intros j Hj. apply H5; lia.
    + exact H6.
Qed.

End ResolverFacts.

(** ** The uniqueness resolver *)

(** C1. Whatever the table answers, [generateUniqueSlug] asks for the
    candidates base, base-1, base-2, ... in that order and without a gap;
    every candidate before the last one asked was not reported free, and a
    slug is returned only if the table reported it free (so never one it
    reported as existing).  If candidate [k] is the first one reported
    free, the function returns it after exactly [k + 1] queries. *)
Theorem generateUniqueSlug_probes_in_order
    (lowerOther : jsstring -> N -> jsstring -> jsstring) (client : Client)
    (baseName : jsstring) (w : World) (fuel : nat) :
  (exists n,
      n <= fuel /\
      queries (snd (run client (generateUniqueSlug lowerOther fuel baseName) w)) =
        queries w ++ map (candidate (generateSlug lowerOther baseName)) (seq 0 (S n)) /\
      (forall j, j < n -> freeAt lowerOther client baseName (length (queries w)) j = false) /\
      match fst (run client (generateUniqueSlug lowerOther fuel baseName) w) with
      | Some c =>
          c = candidate (generateSlug lowerOther baseName) n /\
          reportsFree (client (length (queries w) + n) c) = true /\
          reportsExisting (client (length (queries w) + n) c) = false
      | None =>
          n = fuel /\ freeAt lowerOther client baseName (length (queries w)) n = false
      end) /\
  (forall k,
      k <= fuel ->
      (forall j, j < k -> freeAt lowerOther client baseName (length (queries w)) j = false) ->
      freeAt lowerOther client baseName (length (queries w)) k = true ->
      fst (run client (generateUniqueSlug lowerOther fuel baseName) w) =
        Some (candidate (generateSlug lowerOther baseName) k) /\
      queries (snd (run client (generateUniqueSlug lowerOther fuel baseName) w)) =
        queries w ++ map (candidate (generateSlug lowerOther baseName)) (seq 0 (S k))).
Proof.
  destruct (resolver_trace lowerOther client baseName fuel w)
    as (n & H1 & H2 & _ & H4 & H5).
  split.
  - exists n. repeat split; try assumption.
    destruct (fst _) as [c|]; [|exact H5].
    destruct H5 as [-> H5]. unfold freeAt in H5.
    repeat split; [exact H5|]. apply reportsFree_not_existing. exact H5.
  - intros k Hk Hbefore Hfree.
    assert (n = k) as ->.
    { destruct (Nat.lt_trichotomy n k) as [L|[E|L]]; [|exact E|].
      - destruct (fst _).
        + destruct H5 as [_ H5]. rewrite (Hbefore n L) in H5. discriminate.
        + lia.
      - rewrite (H4 k L) in Hfree. discriminate. }
    split; [|exact H2].
    destruct (fst _) as [c|].
    + destruct H5 as [-> _]. reflexivity.
    + destruct H5 as [_ H5]. rewrite H5 in Hfree. discriminate.
Qed.

(** The scenario of C1: "my-button" and "my-button-1" are taken and
    "my-button-2" is free. *)
Lemma my_button_scenario :
  fst (run scenarioClient (generateUniqueSlug idLower 10 (lit "My Button!!")) initialWorld)
    = Some (lit "my-button-2") /\
  queries (snd (run scenarioClient (generateUniqueSlug idLower 10 (lit "My Button!!"))
                  initialWorld))
    = [lit "my-button"; lit "my-button-1"; lit "my-button-2"].
Proof.
  refine (proj2 (generateUniqueSlug_probes_in_order idLower scenarioClient
                   (lit "My Button!!") initialWorld 10) 2 _ _ _).
  - repeat constructor.
  - intros [|[|j]] Hj; [reflexivity|reflexivity|].
    exfalso. exact (Nat.nlt_0_r _ (proj2 (Nat.succ_lt_mono _ _)
                     (proj2 (Nat.succ_lt_mono _ _) Hj))).
  - reflexivity.
Defined.

(** C2, as stated, with a table that reports every slug taken: unfolded 50
    times the loop has made a 51st query and is still running, and no number
    of rounds makes the function stop. *)
Lemma always_taken_never_stops :
  ~ (exists fuel,
        fst (run alwaysTaken (generateUniqueSlug idLower fuel (lit "my-button"))
               initialWorld) <> None) /\
  fst (run alwaysTaken (generateUniqueSlug idLower 50 (lit "my-button")) initialWorld)
    = None /\
  length (queries (snd (run alwaysTaken (generateUniqueSlug idLower 50 (lit "my-button"))
                          initialWorld))) = 51.
Proof.
  split; [|split; vm_compute; reflexivity].
  intros [fuel H]. apply H.
  destruct (resolver_trace idLower alwaysTaken (lit "my-button") fuel initialWorld)
    as (n & _ & _ & _ & _ & H5).
  destruct (fst _); [|reflexivity].
  destruct H5 as [_ H5]. discriminate H5.
Qed.

(** C2, amended. The loop has no retry bound and no outcome other than
    returning a slug: as long as no candidate is reported free, after any
    number [fuel] of rounds the function has asked for the [fuel + 1]
    candidates base, base-1, ..., and has not returned. *)
Theorem generateUniqueSlug_no_retry_bound
    (lowerOther : jsstring -> N -> jsstring -> jsstring) (client : Client)
    (baseName : jsstring) (w : World) :
  (forall i, freeAt lowerOther client baseName (length (queries w)) i = false) ->
  forall fuel,
    fst (run client (generateUniqueSlug lowerOther fuel baseName) w) = None /\
    queries (snd (run client (generateUniqueSlug lowerOther fuel baseName) w)) =
      queries w ++ map (candidate (generateSlug lowerOther baseName)) (seq 0 (S fuel)).
Proof.
  intros Htaken fuel.
  destruct (resolver_trace lowerOther client baseName fuel w)
    as (n & _ & H2 & _ & _ & H5).
  destruct (fst _) as [c|].
  - destruct H5 as [_ H5]. rewrite Htaken in H5. discriminate.
  - destruct H5 as [-> _]. split; [reflexivity|exact H2].
Qed.

(** A table that reports every slug taken, after 50 rounds of the loop. *)
Lemma always_taken_after_50_rounds :
  fst (run alwaysTaken (generateUniqueSlug idLower 50 (lit "my-button")) initialWorld)
    = None /\
  queries (snd (run alwaysTaken (generateUniqueSlug idLower 50 (lit "my-button"))
                  initialWorld))
    = map (candidate (generateSlug idLower (lit "my-button"))) (seq 0 51).
Proof.
  exact (generateUniqueSlug_no_retry_bound idLower alwaysTaken (lit "my-button")
           initialWorld (fun i => eq_refl) 50).
Defined.






(** ** [checkSlugUnique] and [checkSlug] *)

Lemma run_checkSlugResume client r w :
  run client (checkSlugResume r) w =
  (tt, {| atoms := applyResponse r (atoms w);
          queries := queries w;
          console := match error r with
                     | Some _ => console w ++ [lit "Error checking slug uniqueness:"]
                     | None => console w
                     end |}).
Proof.
  unfold checkSlugResume, uniqueAnswer, applyResponse, reportsFree.
  destruct (error r); [reflexivity|].
  cbn [bind run]. destruct (dataIsEmpty r); reflexivity.
Qed.

Lemma run_checkSlug client slug w :
  run client (checkSlug slug) w =
  if isValidSlug slug
  then run client (checkSlugResume (client (length (queries w)) slug))
         {| atoms := checkingAtoms (atoms w);
            queries := queries w ++ [slug];
            console := console w |}
  else (tt, {| atoms := invalidFormatAtoms; queries := queries w; console := console w |}).
Proof.
  unfold checkSlug. destruct (isValidSlug slug); reflexivity.
Qed.

(** C3, as stated, at a query that fails: [checkSlugUnique] answers false,
    which is its answer for a slug that is taken, and [checkSlug] shows the
    message of a taken slug. *)
Lemma failed_query_reads_as_taken :
  error failedResponse <> None /\
  fst (run alwaysFailing (checkSlugUnique (lit "my-button")) initialWorld) = false /\
  fst (run alwaysTaken (checkSlugUnique (lit "my-button")) initialWorld) = false /\
  atoms (snd (run alwaysFailing (checkSlug (lit "my-button")) initialWorld)) =
  atoms (snd (run alwaysTaken (checkSlug (lit "my-button")) initialWorld)) /\
  slugErrorAtom (atoms (snd (run alwaysFailing (checkSlug (lit "my-button")) initialWorld)))
    = Some (lit "This slug is already taken").
Proof. repeat split; try discriminate; vm_compute; reflexivity. Qed.

(** C3, amended. When the query fails, [checkSlugUnique] prints the error
    to the console and answers false, the answer it gives for a taken slug.
    [checkSlug] then reports the slug as not available with "This slug is
    already taken".  The resolver goes on to the next candidate: when the
    failed query is the one for candidate [k] of a run of
    [generateUniqueSlug] (the candidates before it not reported free) and
    the loop has more than [k] rounds, candidate [k + 1] is asked as well,
    and what is returned is a later candidate that was reported free. *)
Theorem checkSlugUnique_failure_is_taken
    (client : Client) (slug : jsstring) (w : World) :
  error (client (length (queries w)) slug) <> None ->
  fst (run client (checkSlugUnique slug) w) = false /\
  reportsFree (client (length (queries w)) slug) = false /\
  console (snd (run client (checkSlugUnique slug) w)) =
    console w ++ [lit "Error checking slug uniqueness:"] /\
  (isValidSlug slug = true ->
   atoms (snd (run client (checkSlug slug) w)) =
   {| slugAvailableAtom := Some false;
      slugCheckingAtom := false;
      slugErrorAtom := Some (lit "This slug is already taken") |}) /\
  (forall (lowerOther : jsstring -> N -> jsstring -> jsstring) (baseName : jsstring)
          (w0 : World) (k fuel : nat),
      slug = candidate (generateSlug lowerOther baseName) k ->
      length (queries w) = length (queries w0) + k ->
      (forall j, j < k ->
         freeAt lowerOther client baseName (length (queries w0)) j = false) ->
      k < fuel ->
      exists n,
        k < n /\ n <= fuel /\
        queries (snd (run client (generateUniqueSlug lowerOther fuel baseName) w0)) =
          queries w0 ++
          map (candidate (generateSlug lowerOther baseName)) (seq 0 (S k)) ++
          map (candidate (generateSlug lowerOther baseName)) (seq (S k) (n - k)) /\
        match fst (run client (generateUniqueSlug lowerOther fuel baseName) w0) with
        | Some c =>
            c = candidate (generateSlug lowerOther baseName) n /\
            reportsFree (client (length (queries w0) + n) c) = true
        | None => n = fuel
        end).
Proof.
  intros Herr.
  assert (Hfree : reportsFree (client (length (queries w)) slug) = false).
  { unfold reportsFree. destruct (error _); [reflexivity|contradiction]. }
  rewrite run_checkSlugUnique, run_checkSlug. cbn [fst snd].
  split; [exact Hfree|]. split; [exact Hfree|]. split; [|split].
  - unfold answered. destruct (error _); [reflexivity|contradiction].
  - intros ->. rewrite run_checkSlugResume. cbn [snd atoms].
    unfold applyResponse. rewrite Hfree. reflexivity.
  - intros lowerOther baseName w0 k fuel Hslug Hlen Hbefore Hfuel.
    assert (Hk : freeAt lowerOther client baseName (length (queries w0)) k = false).
    { unfold freeAt. rewrite <- Hlen, <- Hslug. exact Hfree. }
    destruct (resolver_trace lowerOther client baseName fuel w0)
      as (n & H1 & H2 & _ & H4 & H5).
    assert (Hn : k < n).
    { destruct (Nat.lt_trichotomy n k) as [L|[E|L]]; [| |exact L].
      - destruct (fst _).
        + destruct H5 as [_ H5]. rewrite (Hbefore n L) in H5. discriminate.
        + lia.
      - subst n. destruct (fst _).
        + destruct H5 as [_ H5]. rewrite Hk in H5. discriminate.
        + lia. }
    exists n. split; [exact Hn|]. split; [exact H1|]. split.
    + rewrite H2, <- map_app, <- seq_app. do 3 f_equal. lia.
    + destruct (fst _) as [c|].
      * destruct H5 as [-> H5]. split; [reflexivity|exact H5].
      * apply H5.
Qed.

(** A table that cannot be reached, asked about "my-button" by
    [checkSlugUnique], by [checkSlug] and by the resolver with three rounds
    of its loop. *)
Lemma failing_table_scenario :
  fst (run alwaysFailing (checkSlugUnique (lit "my-button")) initialWorld) = false /\
  console (snd (run alwaysFailing (checkSlugUnique (lit "my-button")) initialWorld)) =
    [lit "Error checking slug uniqueness:"] /\
  atoms (snd (run alwaysFailing (checkSlug (lit "my-button")) initialWorld)) =
   {| slugAvailableAtom := Some false;
      slugCheckingAtom := false;
      slugErrorAtom := Some (lit "This slug is already taken") |} /\
  exists n,
    0 < n /\ n <= 3 /\
    queries (snd (run alwaysFailing (generateUniqueSlug idLower 3 (lit "My Button"))
                    initialWorld)) =
      [lit "my-button"] ++ map (candidate (lit "my-button")) (seq 1 (n - 0)) /\
    match fst (run alwaysFailing (generateUniqueSlug idLower 3 (lit "My Button"))
                 initialWorld) with
    | Some c =>
        c = candidate (lit "my-button") n /\
        reportsFree (alwaysFailing (0 + n) c) = true
    | None => n = 3
    end.
Proof.
  assert (Herr : error (alwaysFailing (length (queries initialWorld)) (lit "my-button"))
                 <> None) by discriminate.
  destruct (checkSlugUnique_failure_is_taken alwaysFailing (lit "my-button")
              initialWorld Herr) as (H1 & _ & H3 & H4 & H5).
  split; [exact H1|]. split; [exact H3|]. split; [exact (H4 eq_refl)|].
  refine (H5 idLower (lit "My Button") initialWorld 0 3 eq_refl eq_refl _ _).
  - intros j Hj. exfalso. exact (Nat.nlt_0_r _ Hj).
  - repeat constructor.
Defined.

(** C4. For a slug that [isValidSlug] rejects, [checkSlug] leaves
    available = false and the error "Invalid slug format" and asks the table
    nothing; for a slug it accepts, [checkSlug] asks the table exactly once,
    for that slug.  "Invalid Slug!" is rejected. *)
Theorem checkSlug_queries (client : Client) (slug : jsstring) (w : World) :
  (isValidSlug slug = false ->
   slugAvailableAtom (atoms (snd (run client (checkSlug slug) w))) = Some false /\
   slugErrorAtom (atoms (snd (run client (checkSlug slug) w))) =
     Some (lit "Invalid slug format") /\
   queries (snd (run client (checkSlug slug) w)) = queries w) /\
  (isValidSlug slug = true ->
   queries (snd (run client (checkSlug slug) w)) = queries w ++ [slug]) /\
  isValidSlug (lit "Invalid Slug!") = false.
Proof.
  rewrite run_checkSlug. split; [|split].
  - intros ->. repeat split.
  - intros ->. rewrite run_checkSlugResume. reflexivity.
  - reflexivity.
Qed.

(** "Invalid Slug!" typed into the field: no query is made. *)
Lemma invalid_slug_scenario :
  slugAvailableAtom (atoms (snd (run alwaysFree (checkSlug (lit "Invalid Slug!"))
                                   initialWorld))) = Some false /\
  slugErrorAtom (atoms (snd (run alwaysFree (checkSlug (lit "Invalid Slug!"))
                               initialWorld))) = Some (lit "Invalid slug format") /\
  queries (snd (run alwaysFree (checkSlug (lit "Invalid Slug!")) initialWorld)) = [].
Proof.
  exact (proj1 (checkSlug_queries alwaysFree (lit "Invalid Slug!") initialWorld) eq_refl).
Defined.

(** ** Calls of [checkSlug] in flight *)

Lemma advance_checkSlugResume r w :
  advance (checkSlugResume r) w =
  ({| atoms := applyResponse r (atoms w);
      queries := queries w;
      console := match error r with
                 | Some _ => console w ++ [lit "Error checking slug uniqueness:"]
                 | None => console w
                 end |}, inl tt).
Proof.
  unfold checkSlugResume, uniqueAnswer, applyResponse, reportsFree.
  destruct (error r); [reflexivity|].
  cbn [bind advance]. destruct (dataIsEmpty r); reflexivity.
Qed.

Lemma advance_checkSlug slug w :
  advance (checkSlug slug) w =
  if isValidSlug slug
  then ({| atoms := checkingAtoms (atoms w);
           queries := queries w ++ [slug];
           console := console w |}, inr checkSlugResume)
  else ({| atoms := invalidFormatAtoms; queries := queries w; console := console w |},
        inl tt).
Proof.
  unfold checkSlug. destruct (isValidSlug slug); reflexivity.
Qed.

Lemma step_allCheckSlug s e : allCheckSlug s -> allCheckSlug (step s e).
Proof.
  unfold allCheckSlug. intros H. destruct e as [slug|id r]; cbn [step].
  - rewrite advance_checkSlug. destruct (isValidSlug slug); cbn [pending]; [|exact H].
    apply Forall_app. split; [exact H|]. constructor; [reflexivity|constructor].
  - destruct (find (isCall id) (pending s)) as [p|] eqn:E; [|exact H].
    assert (Hp : resume p = checkSlugResume).
    { apply find_some in E as [Hin _]. rewrite Forall_forall in H. apply H. exact Hin. }
    rewrite Hp, advance_checkSlugResume. cbn [pending].
    apply Forall_forall. intros q Hq. apply filter_In in Hq as [Hq _].
    rewrite Forall_forall in H. apply H. exact Hq.
Qed.

Lemma fold_step_allCheckSlug trace : forall s,
  allCheckSlug s -> allCheckSlug (fold_left step trace s).
Proof.
  induction trace as [|e trace IH]; intros s H; [exact H|].
  cbn [fold_left]. apply IH, step_allCheckSlug, H.
Qed.

Lemma runEvents_allCheckSlug trace : allCheckSlug (runEvents trace).
Proof. apply fold_step_allCheckSlug. constructor. Qed.

(** C5, as stated, with three candidates typed in a row: the response for
    the last one ("ccc", free) arrives first and is shown; the responses
    for the two superseded ones arrive later and overwrite it, and the first
    of them switches [checking] off while the other query is still out. *)
Lemma stale_response_overwrites :
  isPending 0 (runEvents [Call (lit "aaa"); Call (lit "bbb"); Call (lit "ccc");
                          Settle 2 freeResponse]) = true /\
  atoms (world (runEvents [Call (lit "aaa"); Call (lit "bbb"); Call (lit "ccc");
                           Settle 2 freeResponse])) =
    {| slugAvailableAtom := Some true; slugCheckingAtom := false; slugErrorAtom := None |} /\
  atoms (world (runEvents [Call (lit "aaa"); Call (lit "bbb"); Call (lit "ccc");
                           Settle 2 freeResponse; Settle 0 takenResponse])) =
    {| slugAvailableAtom := Some false; slugCheckingAtom := false;
       slugErrorAtom := Some (lit "This slug is already taken") |} /\
  atoms (world (runEvents [Call (lit "aaa"); Call (lit "bbb"); Call (lit "ccc");
                           Settle 2 freeResponse; Settle 0 takenResponse])) <>
  atoms (world (runEvents [Call (lit "aaa"); Call (lit "bbb"); Call (lit "ccc");
                           Settle 2 freeResponse])) /\
  isPending 2 (runEvents [Call (lit "aaa"); Call (lit "bbb"); Call (lit "ccc");
                          Settle 0 takenResponse]) = true /\
  slugCheckingAtom (atoms (world (runEvents [Call (lit "aaa"); Call (lit "bbb");
                                             Call (lit "ccc"); Settle 0 takenResponse])))
    = false.
Proof. repeat split; try (vm_compute; reflexivity). vm_compute. discriminate. Qed.

Lemma existsb_filter_other id id' (l : list Pending) :
  id' <> id ->
  existsb (isCall id') (filter (fun q => negb (isCall id q)) l) = existsb (isCall id') l.
Proof.
  intros Hne. induction l as [|q l IH]; [reflexivity|].
  cbn [filter]. destruct (isCall id q) eqn:E1; cbn [negb existsb].
  - assert (E2 : isCall id' q = false).
    { unfold isCall in *. apply Nat.eqb_eq in E1. apply Nat.eqb_neq. congruence. }
    rewrite E2. exact IH.
  - rewrite IH. reflexivity.
Qed.

Lemma existsb_filter_same id (l : list Pending) :
  existsb (isCall id) (filter (fun q => negb (isCall id q)) l) = false.
Proof.
  induction l as [|q l IH]; [reflexivity|].
  cbn [filter]. destruct (isCall id q) eqn:E; cbn [negb existsb]; [exact IH|].
  rewrite E, IH. reflexivity.
Qed.

Lemma runEvents_app trace e : runEvents (trace ++ [e]) = step (runEvents trace) e.
Proof. unfold runEvents. rewrite fold_left_app. reflexivity. Qed.

(** C5, amended. Every response is applied when it arrives: whenever the
    query of a call still in flight is answered, whatever was called or
    answered since the query was made, [available] becomes the verdict of
    that response and [checking] becomes false; the error becomes "This slug
    is already taken" when the verdict is not free and stays what it was
    when the verdict is free.  The call answered is no longer in flight, and
    every other call in flight stays so: no response is discarded. *)
Theorem settle_applies_response (trace : list Event) (id : nat) (r : Response) :
  isPending id (runEvents trace) = true ->
  atoms (world (step (runEvents trace) (Settle id r))) =
    applyResponse r (atoms (world (runEvents trace))) /\
  slugAvailableAtom (atoms (world (runEvents (trace ++ [Settle id r])))) =
    Some (reportsFree r) /\
  slugCheckingAtom (atoms (world (runEvents (trace ++ [Settle id r])))) = false /\
  slugErrorAtom (atoms (world (runEvents (trace ++ [Settle id r])))) =
    (if reportsFree r then slugErrorAtom (atoms (world (runEvents trace)))
     else Some (lit "This slug is already taken")) /\
  isPending id (runEvents (trace ++ [Settle id r])) = false /\
  (forall id', id' <> id ->
     isPending id' (runEvents (trace ++ [Settle id r])) =
     isPending id' (runEvents trace)).
Proof.
  intros H. unfold isPending in *. rewrite runEvents_app.
  pose proof (runEvents_allCheckSlug trace) as Hall. unfold allCheckSlug in Hall.
  cbn [step].
  destruct (find (isCall id) (pending (runEvents trace))) as [p|] eqn:E.
  - assert (Hp : resume p = checkSlugResume).
    { apply find_some in E as [Hin _]. rewrite Forall_forall in Hall. apply Hall, Hin. }
    rewrite Hp, advance_checkSlugResume. cbn [world pending atoms].
    split; [reflexivity|]. split; [reflexivity|]. split; [reflexivity|].
    split; [reflexivity|]. split; [apply existsb_filter_same|].
    intros id' Hne. apply existsb_filter_other, Hne.
  - apply existsb_exists in H as (q & Hq & Hid).
    rewrite (find_none _ _ E q Hq) in Hid. discriminate.
Qed.

(** The response for the first of three candidates, arriving after the
    response for the third. *)
Lemma superseded_response_applied :
  atoms (world (step (runEvents [Call (lit "aaa"); Call (lit "bbb"); Call (lit "ccc");
                                 Settle 2 freeResponse])
                  (Settle 0 takenResponse))) =
  applyResponse takenResponse
    (atoms (world (runEvents [Call (lit "aaa"); Call (lit "bbb"); Call (lit "ccc");
                              Settle 2 freeResponse]))).
Proof.
  exact (proj1 (settle_applies_response
           [Call (lit "aaa"); Call (lit "bbb"); Call (lit "ccc"); Settle 2 freeResponse]
           0 takenResponse eq_refl)).
Defined.

(** A free verdict leaves the error of an earlier response in place: the
    response for "bbb" arrives last and is free, and the message written by
    the response for "aaa" is still shown. *)
Lemma free_response_keeps_earlier_error :
  atoms (world (runEvents [Call (lit "aaa"); Call (lit "bbb"); Call (lit "ccc");
                           Settle 2 freeResponse; Settle 0 takenResponse;
                           Settle 1 freeResponse])) =
  {| slugAvailableAtom := Some true; slugCheckingAtom := false;
     slugErrorAtom := Some (lit "This slug is already taken") |}.
Proof. vm_compute. reflexivity. Qed.

(** ** Two forms on one page *)

(** C6, as stated, with two forms: form A checks "Invalid Slug!" and form B,
    which checked nothing, no longer sees what it saw before. *)
Lemma other_form_sees_check :
  observe formB (checkSlugIn formA (lit "Invalid Slug!") initialWorld) <>
  observe formB initialWorld.
Proof. vm_compute. discriminate. Qed.

(** C6, amended. The three atoms are module-level and shared: after any
    instance has run [checkSlug], every instance observes the state that
    check left, namely the verdict of that check. *)
Theorem checkSlug_shared_atoms (i j : Instance) (slug : jsstring) (w : World) :
  observe j (checkSlugIn i slug w) = observe i (checkSlugIn i slug w) /\
  observe j (checkSlugIn i slug w) =
  (Some (isValidSlug slug && reportsFree (instanceClient i (length (queries w)) slug)),
   false,
   if isValidSlug slug
   then if reportsFree (instanceClient i (length (queries w)) slug) then None
        else Some (lit "This slug is already taken")
   else Some (lit "Invalid slug format")).
Proof.
  split; [reflexivity|].
  unfold observe, checkSlugIn. rewrite run_checkSlug.
  destruct (isValidSlug slug); [|reflexivity].
  rewrite run_checkSlugResume. cbn [snd atoms applyResponse slugAvailableAtom
    slugCheckingAtom slugErrorAtom checkingAtoms andb].
  reflexivity.
Qed.

(** * Further properties of the hook *)

(** ** The normalizer *)

Lemma collapseRuns_length p b s : length (collapseRuns p b s) <= length s.
Proof.
  revert b. induction s as [|c t IH]; intros b; [reflexivity|].
  pose proof (IH true). pose proof (IH false).
  cbn [collapseRuns]. destruct (p c); [destruct b|]; cbn [length]; lia.
Qed.

Lemma dropTrailing_length s : length (dropTrailingHyphens s) <= length s.
Proof.
  induction s as [|c t IH]; [reflexivity|].
  cbn [dropTrailingHyphens]. destruct (forallb isHyphen (c :: t)); simpl; lia.
Qed.

Lemma lowerFrom_latin1_length lowerOther before s :
  Forall (fun c => (c < 256)%N) s ->
  length (lowerFrom lowerOther before s) = length s.
Proof.
  intros H. revert before. induction H as [|c t Hc _ IH]; intros before; [reflexivity|].
  cbn [lowerFrom]. destruct (lowerUnit_latin1 lowerOther before t Hc) as (c' & -> & _).
  cbn [app length]. rewrite IH. reflexivity.
Qed.

(** X2. A slug is never longer than the lowercased name; for a name of
    Basic Latin and Latin-1 characters it is never longer than the name. *)
Theorem generateSlug_length
    (lowerOther : jsstring -> N -> jsstring -> jsstring) (name : jsstring) :
  length (generateSlug lowerOther name) <= length (toLowerCase lowerOther name) /\
  (forall s : string,
      length (generateSlug lowerOther (lit s)) <= String.length s).
Proof.
  assert (H : forall x, length (generateSlug lowerOther x)
                        <= length (toLowerCase lowerOther x)).
  { intros x. rewrite generateSlug_plain. unfold stripEdges.
    pose proof (collapseRuns_length isHyphen false
      (dropTrailingHyphens (dropWhile isHyphen
         (collapseRuns notLowerAlnum false (toLowerCase lowerOther x))))).
    pose proof (dropTrailing_length (dropWhile isHyphen
         (collapseRuns notLowerAlnum false (toLowerCase lowerOther x)))).
    pose proof (dropWhile_length isHyphen
         (collapseRuns notLowerAlnum false (toLowerCase lowerOther x))).
    pose proof (collapseRuns_length notLowerAlnum false (toLowerCase lowerOther x)).
    lia. }
  split; [apply H|].
  intros s. specialize (H (lit s)). unfold toLowerCase in H.
  rewrite lowerFrom_latin1_length in H by apply lit_latin1.
  unfold lit in H. rewrite length_map in H.
  replace (length (list_ascii_of_string s)) with (String.length s) in H; [exact H|].
  clear H. induction s as [|a s IH]; [reflexivity|]. simpl. rewrite IH. reflexivity.
Qed.

(** X1. The strings that [generateSlug] leaves as they are are exactly the
    valid slugs and the empty string. *)
Theorem generateSlug_fixed_points
    (lowerOther : jsstring -> N -> jsstring -> jsstring) (s : jsstring) :
  generateSlug lowerOther s = s <-> (isValidSlug s = true \/ s = []).
Proof.
  rewrite isValidSlug_scan. split.
  - intros H. rewrite <- H. apply generateSlug_scan.
  - intros [H| ->]; [apply generateSlug_fixed; exact H|reflexivity].
Qed.

(** ** The slug as the words of the name *)

Lemma alnumRuns_leading s : leadingAlnum s = true -> alnumRuns s <> [].
Proof.
  destruct s as [|c t]; [discriminate|]. cbn [leadingAlnum alnumRuns]. intros ->.
  destruct (leadingAlnum t); [destruct (alnumRuns t)|]; discriminate.
Qed.

Lemma alnumRuns_nil s : alnumRuns s = [] <-> existsb isLowerAlnum s = false.
Proof.
  induction s as [|c t IH]; [split; reflexivity|].
  cbn [alnumRuns existsb]. destruct (isLowerAlnum c); [|exact IH].
  split; [|discriminate].
  destruct (leadingAlnum t); [destruct (alnumRuns t)|]; discriminate.
Qed.

Lemma collapse_inRun_without_alnum s :
  existsb isLowerAlnum s = false -> collapseRuns notLowerAlnum true s = [].
Proof.
  induction s as [|c t IH]; [reflexivity|].
  cbn [existsb collapseRuns]. unfold notLowerAlnum at 1.
  destruct (isLowerAlnum c); [discriminate|]. exact IH.
Qed.

Lemma dropTrailing_collapse b s :
  dropTrailingHyphens (collapseRuns notLowerAlnum b s) =
  (if negb b && negb (leadingAlnum s) && existsb isLowerAlnum s then [45%N] else [])
  ++ joinHyphen (alnumRuns s).
Proof.
  revert b. induction s as [|c t IH]; intros b; [destruct b; reflexivity|].
  cbn [collapseRuns leadingAlnum alnumRuns existsb].
  assert (En : notLowerAlnum c = negb (isLowerAlnum c)) by reflexivity.
  destruct (isLowerAlnum c) eqn:Ec; cbn [negb] in En; rewrite En.
  - rewrite andb_false_r. cbn [andb app dropTrailingHyphens forallb].
    rewrite (alnum_not_hyphen _ Ec). cbn [andb]. rewrite (IH false). cbn [negb andb].
    destruct (leadingAlnum t) eqn:El.
    + destruct (alnumRuns t) as [|r rs] eqn:Er.
      * exfalso. exact (alnumRuns_leading _ El Er).
      * cbn [negb andb app]. rewrite !joinHyphen_cons. reflexivity.
    + cbn [negb andb]. rewrite joinHyphen_cons.
      destruct (existsb isLowerAlnum t) eqn:Ex.
      * destruct (alnumRuns t) as [|r rs] eqn:Er.
        -- apply alnumRuns_nil in Er. rewrite Er in Ex. discriminate.
        -- rewrite joinHyphen_cons. reflexivity.
      * apply alnumRuns_nil in Ex. rewrite Ex. reflexivity.
  - cbn [negb orb andb]. destruct b.
    + rewrite (IH true). reflexivity.
    + cbn [negb andb dropTrailingHyphens forallb].
      change (isHyphen 45) with true. cbn [andb].
      destruct (existsb isLowerAlnum t) eqn:Ex.
      * assert (Hf : forallb isHyphen (collapseRuns notLowerAlnum true t) = false).
        { apply not_true_is_false. intros Hall.
          assert (Ha : existsb isLowerAlnum (collapseRuns notLowerAlnum true t) = true).
          { rewrite collapse_alnum; [exact Ex|].
            intros x Hx. unfold notLowerAlnum in Hx.
            destruct (isLowerAlnum x); [discriminate|reflexivity]. }
          apply existsb_exists in Ha as (x & Hin & Hx).
          rewrite forallb_forall in Hall. apply Hall in Hin.
          rewrite (hyphen_not_alnum _ Hin) in Hx. discriminate. }
        rewrite Hf, (IH true). reflexivity.
      * rewrite (collapse_inRun_without_alnum _ Ex).
        apply alnumRuns_nil in Ex. rewrite Ex. reflexivity.
Qed.

Lemma dropWhile_collapse s :
  dropWhile isHyphen (collapseRuns notLowerAlnum false s) =
  collapseRuns notLowerAlnum true s.
Proof.
  destruct s as [|c t]; [reflexivity|].
  cbn [collapseRuns].
  assert (En : notLowerAlnum c = negb (isLowerAlnum c)) by reflexivity.
  destruct (isLowerAlnum c) eqn:Ec; cbn [negb] in En; rewrite En.
  - cbn [dropWhile]. rewrite (alnum_not_hyphen _ Ec). reflexivity.
  - cbn [dropWhile]. change (isHyphen 45) with true. cbn iota.
    apply dropWhile_id.
    destruct (collapse_nonAlnum_shape true t) as (_ & _ & H). apply H. reflexivity.
Qed.

(** X3. The slug of a name is made of the maximal runs of [[a-z0-9]] of the
    lowercased name, in order, joined by single hyphens. *)
Theorem generateSlug_words
    (lowerOther : jsstring -> N -> jsstring -> jsstring) (name : jsstring) :
  generateSlug lowerOther name = joinHyphen (alnumRuns (toLowerCase lowerOther name)).
Proof.
  rewrite generateSlug_plain. unfold stripEdges.
  rewrite dropWhile_collapse.
  destruct (collapse_nonAlnum_shape true (toLowerCase lowerOther name)) as (U1 & U2 & _).
  destruct (dropTrailing_scan _ U1 U2) as [S1 _].
  rewrite dropTrailing_collapse in *. cbn [negb andb app] in *.
  apply collapse_hyphen_id.
  apply not_true_is_false. intros D.
  rewrite (scan_doubledHyphen true _ D) in S1. discriminate.
Qed.

Lemma alnumRuns_skip sep s :
  existsb isLowerAlnum sep = false -> alnumRuns (sep ++ s) = alnumRuns s.
Proof.
  induction sep as [|c t IH]; [reflexivity|].
  cbn [existsb app alnumRuns]. destruct (isLowerAlnum c); [discriminate|]. exact IH.
Qed.

Lemma alnumRuns_app_separator a sep b :
  sep <> [] -> existsb isLowerAlnum sep = false ->
  alnumRuns (a ++ sep ++ b) = alnumRuns a ++ alnumRuns b.
Proof.
  intros Hne Hsep.
  induction a as [|c a IH]; [apply (alnumRuns_skip sep b); exact Hsep|].
  cbn [app alnumRuns]. rewrite IH. destruct (isLowerAlnum c); [|reflexivity].
  destruct a as [|c' a'].
  - cbn [app leadingAlnum alnumRuns].
    destruct sep as [|x sep']; [contradiction|].
    cbn [app leadingAlnum]. cbn [existsb] in Hsep.
    destruct (isLowerAlnum x); [discriminate|]. reflexivity.
  - change (leadingAlnum ((c' :: a') ++ sep ++ b)) with (leadingAlnum (c' :: a')).
    destruct (leadingAlnum (c' :: a')) eqn:El; [|reflexivity].
    destruct (alnumRuns (c' :: a')) as [|r rs] eqn:Er.
    + exfalso. exact (alnumRuns_leading _ El Er).
    + reflexivity.
Qed.

Lemma alnumRuns_nonempty s : Forall (fun r => r <> []) (alnumRuns s).
Proof.
  induction s as [|c t IH]; [constructor|].
  cbn [alnumRuns]. destruct (isLowerAlnum c); [|exact IH].
  destruct (leadingAlnum t).
  - destruct (alnumRuns t) as [|r rs].
    + constructor; [discriminate|constructor].
    + inversion IH; subst. constructor; [discriminate|assumption].
  - constructor; [discriminate|exact IH].
Qed.

Lemma hyphenated_app rs1 rs2 :
  hyphenated (rs1 ++ rs2) = hyphenated rs1 ++ hyphenated rs2.
Proof. unfold hyphenated. apply flat_map_app. Qed.

Lemma joinHyphen_app ra rb :
  Forall (fun r => r <> []) ra -> Forall (fun r => r <> []) rb ->
  joinHyphen (ra ++ rb) = joinSlugs (joinHyphen ra) (joinHyphen rb).
Proof.
  intros Ha Hb. destruct ra as [|r rs]; [reflexivity|].
  inversion Ha as [|? ? Hr _]; subst.
  destruct rb as [|r' rs'].
  - rewrite app_nil_r. rewrite joinHyphen_cons.
    destruct r; [contradiction|reflexivity].
  - inversion Hb as [|? ? Hr' _]; subst.
    change ((r :: rs) ++ r' :: rs') with (r :: (rs ++ r' :: rs')).
    rewrite !joinHyphen_cons, hyphenated_app.
    destruct r as [|x r]; [contradiction|]. destruct r' as [|x' r']; [contradiction|].
    cbn [app joinSlugs]. rewrite <- app_assoc. reflexivity.
Qed.

Lemma lowerUnit_latin1_context lowerOther before c after :
  (c < 256)%N ->
  lowerUnit lowerOther before c after = lowerUnit lowerOther [] c [].
Proof.
  intros H. unfold lowerUnit.
  destruct (N.ltb_spec c 128); [reflexivity|].
  destruct (N.ltb_spec c 256); [reflexivity|lia].
Qed.

Lemma lowerFrom_latin1_flat lowerOther before s :
  Forall (fun c => (c < 256)%N) s ->
  lowerFrom lowerOther before s = flat_map (fun c => lowerUnit lowerOther [] c []) s.
Proof.
  intros H. revert before. induction H as [|c t Hc _ IH]; intros before; [reflexivity|].
  cbn [lowerFrom flat_map]. rewrite IH.
  rewrite (lowerUnit_latin1_context lowerOther before t Hc). reflexivity.
Qed.

Lemma lit_app s1 s2 : lit (s1 ++ s2) = lit s1 ++ lit s2.
Proof.
  unfold lit. induction s1 as [|a s1 IH]; [reflexivity|].
  cbn [String.append list_ascii_of_string map app]. rewrite IH. reflexivity.
Qed.

Lemma toLowerCase_lit_app lowerOther s1 s2 :
  toLowerCase lowerOther (lit (s1 ++ s2)) =
  toLowerCase lowerOther (lit s1) ++ toLowerCase lowerOther (lit s2).
Proof.
  unfold toLowerCase.
  rewrite !lowerFrom_latin1_flat by apply lit_latin1.
  rewrite lit_app. apply flat_map_app.
Qed.

(** X4. Between two parts of a name of Basic Latin and Latin-1 characters,
    a separator of one or more characters that are no ASCII letters or
    digits counts as one hyphen: the slug of the whole is the slugs of the
    parts joined by a hyphen, or the slug of one part when the other part
    has an empty slug. *)
Theorem generateSlug_separator
    (lowerOther : jsstring -> N -> jsstring -> jsstring) (s1 sep s2 : string) :
  sep <> ""%string ->
  existsb isAsciiAlnum (lit sep) = false ->
  generateSlug lowerOther (lit (s1 ++ sep ++ s2)) =
  joinSlugs (generateSlug lowerOther (lit s1)) (generateSlug lowerOther (lit s2)).
Proof.
  intros Hne Hsep. rewrite !generateSlug_words, !toLowerCase_lit_app.
  rewrite alnumRuns_app_separator.
  - apply joinHyphen_app; apply alnumRuns_nonempty.
  - intros E. apply (f_equal (@length N)) in E.
    unfold toLowerCase in E.
    rewrite lowerFrom_latin1_length in E by apply lit_latin1.
    destruct sep; [contradiction|discriminate].
  - unfold toLowerCase. rewrite lowerFrom_latin1 by apply lit_latin1. exact Hsep.
Qed.

(** "Hello" and "World" with ", " in between. *)
Lemma hello_world_separator :
  generateSlug idLower (lit "Hello, World") = lit "hello-world".
Proof.
  refine (@generateSlug_separator idLower "Hello"%string ", "%string "World"%string
            _ eq_refl).
  discriminate.
Defined.

(** ** The candidates of the resolver *)

Lemma digitsOf_digits d : forallb isLowerAlnum (digitsOf d) = true.
Proof. induction d; simpl; auto. Qed.

Lemma digitsOf_nonempty d : d <> Decimal.Nil -> digitsOf d <> [].
Proof. destruct d; [contradiction|..]; discriminate. Qed.

Lemma digitsOf_inj d1 : forall d2, digitsOf d1 = digitsOf d2 -> d1 = d2.
Proof.
  induction d1; intros d2 H; destruct d2; simpl in H; try discriminate H;
    try reflexivity; injection H as H; f_equal; auto.
Qed.

Lemma numberToString_segment n : isSegment (numberToString n).
Proof.
  split; [|apply digitsOf_digits].
  unfold numberToString. apply digitsOf_nonempty.
  destruct n as [|p]; [discriminate|]. apply DecimalPos.Unsigned.to_uint_nonnil.
Qed.

Lemma numberToString_inj n m : numberToString n = numberToString m -> n = m.
Proof.
  unfold numberToString. intros H. apply digitsOf_inj in H.
  rewrite <- (DecimalN.Unsigned.of_to n), <- (DecimalN.Unsigned.of_to m), H.
  reflexivity.
Qed.

Lemma scan_app_hyphen b s t :
  scanSlug b s = true -> scanSlug b (s ++ 45%N :: t) = scanSlug false t.
Proof.
  revert b. induction s as [|c s IH]; intros b H.
  - simpl in H. subst b. reflexivity.
  - cbn [app scanSlug] in *. destruct (isLowerAlnum c); [exact (IH _ H)|].
    destruct (isHyphen c); [|discriminate].
    apply andb_prop in H as [-> H]. cbn [andb]. exact (IH _ H).
Qed.

Lemma candidate_valid base i :
  scanSlug false base = true -> scanSlug false (candidate base i) = true.
Proof.
  intros H. destruct i as [|i]; [exact H|].
  unfold candidate. change (lit "-" ++ ?x) with (45%N :: x).
  rewrite scan_app_hyphen by exact H.
  rewrite <- (app_nil_r (numberToString _)).
  rewrite scan_app_segment by apply numberToString_segment. reflexivity.
Qed.

(** X5. When the name holds an alphanumeric character, every candidate the
    resolver can ask for is a valid slug, and so is whatever it returns. *)
Theorem generateUniqueSlug_valid_result
    (lowerOther : jsstring -> N -> jsstring -> jsstring) (client : Client)
    (baseName : jsstring) (w : World) (fuel : nat) :
  hasAlphanumeric lowerOther baseName = true ->
  (forall i, isValidSlug (candidate (generateSlug lowerOther baseName) i) = true) /\
  (forall c,
      fst (run client (generateUniqueSlug lowerOther fuel baseName) w) = Some c ->
      isValidSlug c = true).
Proof.
  intros Hname.
  assert (Hbase : scanSlug false (generateSlug lowerOther baseName) = true).
  { destruct (generateSlug_scan lowerOther baseName) as [H|H]; [exact H|].
    apply generateSlug_empty_iff in H. rewrite H in Hname. discriminate. }
  assert (Hall : forall i,
             isValidSlug (candidate (generateSlug lowerOther baseName) i) = true).
  { intros i. rewrite isValidSlug_scan. apply candidate_valid, Hbase. }
  split; [exact Hall|].
  intros c Hc.
  destruct (resolver_trace lowerOther client baseName fuel w)
    as (n & _ & _ & _ & _ & H5).
  rewrite Hc in H5. destruct H5 as [-> _]. apply Hall.
Qed.

(** "My Button!!" against a table where "my-button" and "my-button-1" are
    taken. *)
Lemma my_button_result_is_valid :
  (forall i, isValidSlug (candidate (generateSlug idLower (lit "My Button!!")) i) = true) /\
  (forall c,
      fst (run scenarioClient (generateUniqueSlug idLower 10 (lit "My Button!!"))
             initialWorld) = Some c ->
      isValidSlug c = true).
Proof.
  exact (generateUniqueSlug_valid_result idLower scenarioClient (lit "My Button!!")
           initialWorld 10 eq_refl).
Defined.

Lemma candidate_inj base i j : candidate base i = candidate base j -> i = j.
Proof.
  destruct i as [|i], j as [|j]; unfold candidate; intros H.
  - reflexivity.
  - apply (f_equal (@length N)) in H. rewrite length_app in H. simpl in H. lia.
  - apply (f_equal (@length N)) in H. rewrite length_app in H. simpl in H. lia.
  - apply app_inv_head in H. injection H as H.
    apply numberToString_inj in H. lia.
Qed.

Lemma candidates_NoDup base l : NoDup l -> NoDup (map (candidate base) l).
Proof.
  induction 1 as [|i l Hi _ IH]; [constructor|].
  cbn [map]. constructor; [|exact IH].
  intros Hin. apply in_map_iff in Hin as (j & E & Hj).
  apply candidate_inj in E. subst j. contradiction.
Qed.

(** X6. One call of the resolver never asks the table for the same slug
    twice: the candidates are pairwise different. *)
Theorem generateUniqueSlug_no_repeated_query
    (lowerOther : jsstring -> N -> jsstring -> jsstring) (client : Client)
    (baseName : jsstring) (w : World) (fuel : nat) :
  (forall i j,
      candidate (generateSlug lowerOther baseName) i =
      candidate (generateSlug lowerOther baseName) j -> i = j) /\
  exists asked,
    queries (snd (run client (generateUniqueSlug lowerOther fuel baseName) w)) =
      queries w ++ asked /\
    NoDup asked.
Proof.
  split; [intros i j; apply candidate_inj|].
  destruct (resolver_trace lowerOther client baseName fuel w)
    as (n & _ & H2 & _).
  eexists. split; [exact H2|]. apply candidates_NoDup, seq_NoDup.
Qed.

Lemma loopBody_world lowerOther client baseName v w :
  snd (run client (loopBody lowerOther baseName v) w) =
  answered client
    (generateSlug lowerOther baseName ++ lit "-" ++ numberToString (suffix v)) w.
Proof. unfold loopBody. rewrite run_bind, run_checkSlugUnique. reflexivity. Qed.

Lemma answered_console client slug w :
  error (client (length (queries w)) slug) = None ->
  console (answered client slug w) = console w.
Proof. unfold answered. intros ->. reflexivity. Qed.

Lemma while_console lowerOther client baseName fuel : forall v w,
  (forall n slug, error (client n slug) = None) ->
  console (snd (run client (whileNotUnique lowerOther fuel baseName v) w)) = console w.
Proof.
  induction fuel as [|fuel IH]; intros v w Hok; cbn [whileNotUnique];
    destruct (isUnique v); try reflexivity.
  rewrite run_bind, IH by exact Hok.
  rewrite loopBody_world. apply answered_console, Hok.
Qed.

(** X7. The resolver never writes the three atoms (no checking flag, verdict
    or error is shown while a slug is generated), and it prints to the
    console only for failed queries: with a table whose responses carry no
    error the console is left as it was. *)
Theorem generateUniqueSlug_leaves_atoms
    (lowerOther : jsstring -> N -> jsstring -> jsstring) (client : Client)
    (baseName : jsstring) (w : World) (fuel : nat) :
  atoms (snd (run client (generateUniqueSlug lowerOther fuel baseName) w)) = atoms w /\
  ((forall n slug, error (client n slug) = None) ->
   console (snd (run client (generateUniqueSlug lowerOther fuel baseName) w)) = console w).
Proof.
  split.
  - destruct (resolver_trace lowerOther client baseName fuel w)
      as (n & _ & _ & H3 & _). exact H3.
  - intros Hok. unfold generateUniqueSlug, loopEntry.
    rewrite run_bind, while_console by exact Hok.
    rewrite run_bind, run_checkSlugUnique. cbn [fst snd run].
    apply answered_console, Hok.
Qed.

(** ** Calls of [checkSlug] in flight: what every trace keeps *)

Lemma step_queries s e :
  allCheckSlug s ->
  queries (world (step s e)) = queries (world s) ++ validCalls [e].
Proof.
  intros Hall. destruct e as [slug|id r]; cbn [step validCalls].
  - rewrite advance_checkSlug. destruct (isValidSlug slug); cbn [world queries].
    + reflexivity.
    + rewrite app_nil_r. reflexivity.
  - rewrite app_nil_r.
    destruct (find (isCall id) (pending s)) as [p|] eqn:E; [|reflexivity].
    assert (Hp : resume p = checkSlugResume).
    { apply find_some in E as [Hin _]. unfold allCheckSlug in Hall.
      rewrite Forall_forall in Hall. apply Hall, Hin. }
    rewrite Hp, advance_checkSlugResume. reflexivity.
Qed.

Lemma validCalls_cons e trace : validCalls (e :: trace) = validCalls [e] ++ validCalls trace.
Proof.
  destruct e as [slug|id r]; cbn [validCalls]; [|reflexivity].
  destruct (isValidSlug slug); reflexivity.
Qed.

Lemma fold_step_queries trace : forall s,
  allCheckSlug s ->
  queries (world (fold_left step trace s)) = queries (world s) ++ validCalls trace.
Proof.
  induction trace as [|e trace IH]; intros s Hall.
  - cbn [fold_left validCalls]. rewrite app_nil_r. reflexivity.
  - cbn [fold_left]. rewrite IH by (apply step_allCheckSlug, Hall).
    rewrite step_queries by exact Hall.
    rewrite <- app_assoc, <- validCalls_cons. reflexivity.
Qed.

(** X8. Whatever is typed and whenever the responses arrive, the table is
    asked exactly for the well-formed slugs that [checkSlug] was called
    with, once each and in the order of the calls; a response never causes
    a query. *)
Theorem checkSlug_query_log (trace : list Event) :
  queries (world (runEvents trace)) = validCalls trace.
Proof.
  unfold runEvents. rewrite fold_step_queries; [reflexivity|constructor].
Qed.

Lemma step_checking s e :
  allCheckSlug s ->
  (slugCheckingAtom (atoms (world s)) = true -> isPending (pred (started s)) s = true) ->
  slugCheckingAtom (atoms (world (step s e))) = true ->
  isPending (pred (started (step s e))) (step s e) = true.
Proof.
  intros Hall Hinv. destruct e as [slug|id r]; cbn [step].
  - rewrite advance_checkSlug. destruct (isValidSlug slug).
    + intros _. unfold isPending. cbn [pending started pred].
      rewrite existsb_app. cbn [existsb]. unfold isCall at 2. cbn [callId].
      rewrite Nat.eqb_refl. apply orb_true_r.
    + cbn [world atoms invalidFormatAtoms slugCheckingAtom]. discriminate.
  - destruct (find (isCall id) (pending s)) as [p|] eqn:E; [|exact Hinv].
    assert (Hp : resume p = checkSlugResume).
    { apply find_some in E as [Hin _]. unfold allCheckSlug in Hall.
      rewrite Forall_forall in Hall. apply Hall, Hin. }
    rewrite Hp, advance_checkSlugResume.
    cbn [world atoms applyResponse slugCheckingAtom]. discriminate.
Qed.

Lemma fold_step_checking trace : forall s,
  allCheckSlug s ->
  (slugCheckingAtom (atoms (world s)) = true -> isPending (pred (started s)) s = true) ->
  slugCheckingAtom (atoms (world (fold_left step trace s))) = true ->
  isPending (pred (started (fold_left step trace s))) (fold_left step trace s) = true.
Proof.
  induction trace as [|e trace IH]; intros s Hall Hinv; [exact Hinv|].
  cbn [fold_left]. apply IH.
  - apply step_allCheckSlug, Hall.
  - apply step_checking; assumption.
Qed.

(** X9. The checking flag is never shown when nothing is in flight: after
    any calls and responses, if [slugChecking] is true then the query of
    the most recent call is still unanswered.  (The converse does not hold:
    a response for an older call switches the flag off.) *)
Theorem checking_implies_pending (trace : list Event) :
  slugCheckingAtom (atoms (world (runEvents trace))) = true ->
  isPending (pred (started (runEvents trace))) (runEvents trace) = true /\
  pending (runEvents trace) <> [].
Proof.
  intros H.
  assert (P : isPending (pred (started (runEvents trace))) (runEvents trace) = true).
  { apply fold_step_checking; [constructor|discriminate|exact H]. }
  split; [exact P|].
  unfold isPending in P. intros E. rewrite E in P. discriminate.
Qed.

(** One call that is still unanswered. *)
Lemma checking_while_pending :
  isPending (pred (started (runEvents [Call (lit "aaa")]))) (runEvents [Call (lit "aaa")])
    = true /\
  pending (runEvents [Call (lit "aaa")]) <> [].
Proof.
  exact (checking_implies_pending [Call (lit "aaa")] eq_refl).
Defined.

(** * The video preview *)

Lemma toggleVideoIcon_rest hide p :
  videoElement (toggleVideoIcon hide p) = videoElement p /\
  isVideoLoaded (toggleVideoIcon hide p) = isVideoLoaded p /\
  renderPending (toggleVideoIcon hide p) = renderPending p /\
  loadingPlays (toggleVideoIcon hide p) = loadingPlays p.
Proof. unfold toggleVideoIcon. destruct (videoIcon p); cbn; auto. Qed.

Lemma toggleVideoIcon_icon hide p :
  videoIcon (toggleVideoIcon hide p) =
  match videoIcon p with
  | Some before => Some (iconAfter (Some hide) before)
  | None => None
  end.
Proof.
  unfold toggleVideoIcon. destruct (videoIcon p) eqn:E; [destruct hide; reflexivity|exact E].
Qed.

(** One step, seen from the video element. *)
Lemma previewStep_video video_url p e :
  exists added,
    videoOps (previewStep video_url p e) = videoOps p ++ added /\
    (videoElement p = None <-> videoElement (previewStep video_url p e) = None) /\
    (loadingPlays p = 0 ->
     isVideoLoaded (previewStep video_url p e) = isVideoLoaded p) /\
    (noVideoUrl video_url = true ->
     forallb isPause added = true /\
     loadingPlays (previewStep video_url p e) <= loadingPlays p) /\
    (handlerSeesLoaded p = true ->
     handlerSeesLoaded (previewStep video_url p e) = true /\
     existsb reloads added = false) /\
    (isFulfilled e = false -> isVideoLoaded p = false ->
     isVideoLoaded (previewStep video_url p e) = false /\
     length (filter isLoad added) =
       (if isEnter e && negb (noVideoUrl video_url)
        then match videoElement p with Some _ => 1 | None => 0 end else 0)) /\
    (isRendered e = false -> handlerSeesLoaded p = false ->
     handlerSeesLoaded (previewStep video_url p e) = false /\
     length (filter isLoad added) =
       (if isEnter e && negb (noVideoUrl video_url)
        then match videoElement p with Some _ => 1 | None => 0 end else 0)).
Proof.
  destruct p as [icon ve loaded pend n].
  destruct e as [| |fulfilled|]; [| |destruct n; destruct fulfilled|];
    destruct icon as [i|], ve as [ops|], video_url as [[|c u]|], loaded, pend;
    cbn; eexists;
    (split; [first [reflexivity | symmetry; apply app_nil_r]|]);
    cbn; repeat split; intros; try discriminate; try reflexivity; try lia; auto.
Qed.

(** X10. A component without a video URL (null or empty): whatever the
    pointer does, the only calls ever made on the video element are
    [pause()]; no source is assigned and nothing is loaded or played, and a
    preview that was not loading stays not loaded. *)
Theorem preview_without_video_url
    (video_url : option jsstring) (trace : list PreviewEvent) (p : Preview) :
  noVideoUrl video_url = true ->
  (exists added,
      videoOps (previewRun video_url trace p) = videoOps p ++ added /\
      forallb isPause added = true) /\
  (loadingPlays p = 0 ->
   isVideoLoaded (previewRun video_url trace p) = isVideoLoaded p).
Proof.
  intros Hurl. unfold previewRun. revert p.
  induction trace as [|e trace IH]; intros p.
  - split; [exists []; rewrite app_nil_r; split; reflexivity|reflexivity].
  - cbn [fold_left].
    destruct (previewStep_video video_url p e) as (a1 & E1 & _ & L1 & N1 & _).
    destruct (N1 Hurl) as [P1 Q1].
    destruct (IH (previewStep video_url p e)) as [(a2 & E2 & P2) L2].
    split.
    + exists (a1 ++ a2). rewrite E2, E1, <- app_assoc, forallb_app, P1, P2.
      split; reflexivity.
    + intros Hz. rewrite L2 by lia. apply L1, Hz.
Qed.

(** The pointer enters and leaves a preview that has no video URL. *)
Lemma hover_without_video_url :
  (exists added,
      videoOps (previewRun None [MouseEnter; MouseLeave; MouseEnter] (mountedPreview None))
        = videoOps (mountedPreview None) ++ added /\
      forallb isPause added = true) /\
  (loadingPlays (mountedPreview None) = 0 ->
   isVideoLoaded (previewRun None [MouseEnter; MouseLeave; MouseEnter] (mountedPreview None))
     = isVideoLoaded (mountedPreview None)).
Proof.
  exact (preview_without_video_url None [MouseEnter; MouseLeave; MouseEnter]
           (mountedPreview None) eq_refl).
Defined.

Lemma fold_handlerSeesLoaded video_url trace : forall p,
  handlerSeesLoaded p = true ->
  handlerSeesLoaded (fold_left (previewStep video_url) trace p) = true /\
  exists added,
    videoOps (fold_left (previewStep video_url) trace p) = videoOps p ++ added /\
    existsb reloads added = false.
Proof.
  induction trace as [|e trace IH]; intros p Hl.
  - split; [exact Hl|]. exists []. rewrite app_nil_r. split; reflexivity.
  - cbn [fold_left].
    destruct (previewStep_video video_url p e) as (a1 & E1 & _ & _ & _ & K1 & _).
    destruct (K1 Hl) as [L1 R1].
    destruct (IH _ L1) as (L2 & a2 & E2 & R2).
    split; [exact L2|].
    exists (a1 ++ a2). rewrite E2, E1, <- app_assoc, existsb_app, R1, R2.
    split; reflexivity.
Qed.

(** X11. Once the state [isVideoLoaded] is true and the component has
    rendered with it, so that the handlers attached hold the value true, the
    video stays loaded whatever happens: from then on no hover assigns the
    source or calls [load()] again; the video element is only played and
    paused. *)
Theorem preview_loaded_never_reloads
    (video_url : option jsstring) (trace : list PreviewEvent) (p : Preview) :
  isVideoLoaded p = true ->
  renderPending p = false ->
  isVideoLoaded (previewRun video_url trace p) = true /\
  renderPending (previewRun video_url trace p) = false /\
  exists added,
    videoOps (previewRun video_url trace p) = videoOps p ++ added /\
    existsb reloads added = false.
Proof.
  intros Hl Hr. unfold previewRun.
  destruct (@fold_handlerSeesLoaded video_url trace p) as (H & added & E & R).
  - unfold handlerSeesLoaded. rewrite Hl, Hr. reflexivity.
  - unfold handlerSeesLoaded in H. apply andb_prop in H as [H1 H2].
    apply negb_true_iff in H2.
    split; [exact H1|]. split; [exact H2|]. exists added. split; assumption.
Qed.

(** A first hover whose [play()] succeeds, the render that follows, then two
    more hovers. *)
Lemma hover_after_load :
  isVideoLoaded
    (previewRun (Some (lit "clip.mp4")) [MouseLeave; MouseEnter; MouseLeave; MouseEnter]
       (previewRun (Some (lit "clip.mp4")) [MouseEnter; PlaySettled true; Rendered]
          (mountedPreview None))) = true /\
  renderPending
    (previewRun (Some (lit "clip.mp4")) [MouseLeave; MouseEnter; MouseLeave; MouseEnter]
       (previewRun (Some (lit "clip.mp4")) [MouseEnter; PlaySettled true; Rendered]
          (mountedPreview None))) = false /\
  exists added,
    videoOps
      (previewRun (Some (lit "clip.mp4")) [MouseLeave; MouseEnter; MouseLeave; MouseEnter]
         (previewRun (Some (lit "clip.mp4")) [MouseEnter; PlaySettled true; Rendered]
            (mountedPreview None))) =
    videoOps (previewRun (Some (lit "clip.mp4")) [MouseEnter; PlaySettled true; Rendered]
                (mountedPreview None)) ++ added /\
    existsb reloads added = false.
Proof.
  exact (preview_loaded_never_reloads (Some (lit "clip.mp4"))
           [MouseLeave; MouseEnter; MouseLeave; MouseEnter]
           (previewRun (Some (lit "clip.mp4")) [MouseEnter; PlaySettled true; Rendered]
              (mountedPreview None)) eq_refl eq_refl).
Defined.

(** X12. Until a [play()] of a first load succeeds, every hover over a
    mounted preview with a video URL assigns the source and calls [load()]
    again: the number of [load()] calls grows by the number of times the
    pointer entered. *)
Theorem preview_reloads_until_loaded
    (video_url : option jsstring) (trace : list PreviewEvent) (p : Preview) :
  noVideoUrl video_url = false ->
  videoElement p <> None ->
  isVideoLoaded p = false ->
  existsb isFulfilled trace = false ->
  length (filter isLoad (videoOps (previewRun video_url trace p))) =
  length (filter isLoad (videoOps p)) + length (filter isEnter trace).
Proof.
  intros Hurl. unfold previewRun. revert p.
  induction trace as [|e trace IH]; intros p Hv Hl Hf; [cbn; lia|].
  cbn [fold_left existsb] in *. apply orb_false_iff in Hf as [Hf1 Hf2].
  destruct (previewStep_video video_url p e) as (a1 & E1 & V1 & _ & _ & _ & K1 & _).
  destruct (K1 Hf1 Hl) as [L1 C1].
  rewrite IH; [|intros E; apply Hv, V1, E|exact L1|exact Hf2].
  rewrite E1, filter_app, length_app, C1, Hurl. cbn [filter negb].
  destruct (videoElement p); [|contradiction].
  destruct (isEnter e); cbn [andb length]; lia.
Qed.

(** Three hovers, the [play()] of the first one rejected. *)
Lemma three_hovers_three_loads :
  length (filter isLoad (videoOps
     (previewRun (Some (lit "clip.mp4"))
        [MouseEnter; MouseLeave; PlaySettled false; MouseEnter; MouseLeave; MouseEnter]
        (mountedPreview None)))) = 3.
Proof.
  refine (@preview_reloads_until_loaded (Some (lit "clip.mp4"))
            [MouseEnter; MouseLeave; PlaySettled false; MouseEnter; MouseLeave; MouseEnter]
            (mountedPreview None) eq_refl _ eq_refl eq_refl).
  discriminate.
Defined.

(** X18. As long as the component has not rendered again, the handlers
    attached hold [isVideoLoaded] = false even after a [play()] of a first
    load has succeeded: every hover over a mounted preview with a video URL
    still assigns the source and calls [load()] again, and the number of
    [load()] calls grows by the number of times the pointer entered. *)
Theorem preview_reloads_until_rerendered
    (video_url : option jsstring) (trace : list PreviewEvent) (p : Preview) :
  noVideoUrl video_url = false ->
  videoElement p <> None ->
  handlerSeesLoaded p = false ->
  existsb isRendered trace = false ->
  length (filter isLoad (videoOps (previewRun video_url trace p))) =
  length (filter isLoad (videoOps p)) + length (filter isEnter trace).
Proof.
  intros Hurl. unfold previewRun. revert p.
  induction trace as [|e trace IH]; intros p Hv Hl Hf; [cbn; lia|].
  cbn [fold_left existsb] in *. apply orb_false_iff in Hf as [Hf1 Hf2].
  destruct (previewStep_video video_url p e) as (a1 & E1 & V1 & _ & _ & _ & _ & K1).
  destruct (K1 Hf1 Hl) as [L1 C1].
  rewrite IH; [|intros E; apply Hv, V1, E|exact L1|exact Hf2].
  rewrite E1, filter_app, length_app, C1, Hurl. cbn [filter negb].
  destruct (videoElement p); [|contradiction].
  destruct (isEnter e); cbn [andb length]; lia.
Qed.

(** A hover, its [play()] fulfilled, and a second hover before the
    component has rendered again: the source is loaded twice. *)
Lemma hover_before_rerender :
  length (filter isLoad (videoOps
     (previewRun (Some (lit "clip.mp4")) [MouseEnter; PlaySettled true; MouseEnter]
        (mountedPreview None)))) = 2.
Proof.
  refine (@preview_reloads_until_rerendered (Some (lit "clip.mp4"))
            [MouseEnter; PlaySettled true; MouseEnter]
            (mountedPreview None) eq_refl _ eq_refl eq_refl).
  discriminate.
Defined.

Lemma previewStep_icon video_url p e :
  videoIcon (previewStep video_url p e) =
  match videoIcon p, e with
  | Some _, MouseEnter => Some hiddenIcon
  | Some _, MouseLeave => Some shownIcon
  | v, _ => v
  end.
Proof.
  destruct p as [icon ve loaded pend n].
  destruct e as [| |fulfilled|]; [| |destruct n; destruct fulfilled|];
    destruct icon as [i|], ve as [ops|], video_url as [[|c u]|], loaded, pend;
    reflexivity.
Qed.

Lemma fold_preview_icon video_url trace : forall p last before,
  videoIcon p = Some (iconAfter last before) ->
  videoIcon (fold_left (previewStep video_url) trace p) =
  Some (iconAfter (fold_left pointerStep trace last) before).
Proof.
  induction trace as [|e trace IH]; intros p last before H; [exact H|].
  cbn [fold_left]. apply IH. rewrite previewStep_icon, H.
  destruct e; reflexivity.
Qed.

(** X13. The icon follows the pointer and nothing else: after any events
    the icon (when the selector finds one) is hidden if the pointer entered
    last and shown if it left last, whether or not the component has a
    video and whatever became of the [play()] promises; when the selector
    finds no element nothing is styled. *)
Theorem preview_icon_follows_pointer
    (video_url : option jsstring) (trace : list PreviewEvent) (p : Preview) :
  videoIcon (previewRun video_url trace p) =
  match videoIcon p with
  | Some before => Some (iconAfter (lastPointer trace) before)
  | None => None
  end.
Proof.
  unfold previewRun, lastPointer.
  destruct (videoIcon p) as [before|] eqn:E.
  - apply fold_preview_icon. exact E.
  - revert p E. induction trace as [|e trace IH]; intros p E; [exact E|].
    cbn [fold_left]. apply IH. rewrite previewStep_icon, E. reflexivity.
Qed.

(** * The website field *)

(** ** The matcher finds exactly the matches *)

Lemma iterStar_Run (r : regex) :
  (forall x y, In y (ends r x) <-> Run r x y) ->
  forall fuel x z, remaining x <= fuel ->
                   (In z (iterStar (ends r) fuel x) <-> Run (Star r) x z).
Proof.
  intros IHr. induction fuel as [|n IH]; intros x z Hfuel.
  - cbn [iterStar]. split.
    + intros [<-|[]]. constructor.
    + intros H. inversion H; subst; [left; reflexivity|lia].
  - cbn [iterStar]. rewrite in_app_iff, in_flat_map. split.
    + intros [(y & Hy & Hz)|[<-|[]]]; [|constructor].
      destruct (remaining y <? remaining x) eqn:E; [|contradiction].
      apply Nat.ltb_lt in E.
      apply RunStarMore with y; [apply IHr, Hy|exact E|].
      apply IH; [lia|exact Hz].
    + intros H. inversion H; subst.
      * right. left. reflexivity.
      * match goal with
        | Hxy : Run r x ?y, Hlt : remaining ?y < remaining x, Hyz : Run (Star r) ?y z |- _ =>
            left; exists y; split; [apply IHr, Hxy|];
            apply Nat.ltb_lt in Hlt as E; rewrite E;
            apply IH; [lia|exact Hyz]
        end.
Qed.

Lemma ends_Run r : forall x y, In y (ends r x) <-> Run r x y.
Proof.
  induction r as [| |p|r1 IH1 r2 IH2|r1 IH1 r2 IH2|r IH|r IH]; intros [b s] y.
  - cbn [ends fst]. destruct b; split.
    + intros [<-|[]]. constructor.
    + intros H. inversion H; subst. left. reflexivity.
    + intros [].
    + intros H. inversion H.
  - cbn [ends snd]. destruct s as [|c t]; split.
    + intros [<-|[]]. constructor.
    + intros H. inversion H; subst. left. reflexivity.
    + intros [].
    + intros H. inversion H.
  - cbn [ends snd]. destruct s as [|c t].
    + split; [intros []|intros H; inversion H].
    + destruct (p c) eqn:E; split.
      * intros [<-|[]]. constructor. exact E.
      * intros H. inversion H; subst. left. reflexivity.
      * intros [].
      * intros H. inversion H; subst. congruence.
  - cbn [ends]. rewrite in_flat_map. split.
    + intros (m & Hm & Hy). apply RunSeq with m; [apply IH1, Hm|apply IH2, Hy].
    + intros H. inversion H; subst.
      match goal with
      | H1 : Run r1 _ ?m, H2 : Run r2 ?m _ |- _ =>
          exists m; split; [apply IH1, H1|apply IH2, H2]
      end.
  - cbn [ends]. rewrite in_app_iff. split.
    + intros [H|H]; [apply RunAltL, IH1, H|apply RunAltR, IH2, H].
    + intros H. inversion H; subst; [left; apply IH1|right; apply IH2]; assumption.
  - cbn [ends]. apply iterStar_Run; [exact IH|reflexivity].
  - cbn [ends]. rewrite in_flat_map. split.
    + intros (m & Hm & Hy). apply RunPlus with m; [apply IH, Hm|].
      apply (@iterStar_Run r IH (remaining m) m y); [reflexivity|exact Hy].
    + intros H. inversion H; subst.
      match goal with
      | H1 : Run r _ ?m, H2 : Run (Star r) ?m _ |- _ =>
          exists m; split; [apply IH, H1|];
          apply (@iterStar_Run r IH (remaining m) m y); [reflexivity|exact H2]
      end.
Qed.

Lemma nonempty_In (A : Type) (l : list A) :
  (match l with [] => false | _ :: _ => true end) = true <-> exists y, In y l.
Proof.
  destruct l as [|a l]; split; try discriminate.
  - intros [y []].
  - intros _. exists a. left. reflexivity.
  - reflexivity.
Qed.

(** A pattern that begins with [^] is tried at index 0 only. *)
Lemma test_anchored r s :
  regex_test (Seq Bol r) s = true <-> exists y, Run r (true, s) y.
Proof.
  unfold regex_test.
  assert (Hin : forall t, testFrom (Seq Bol r) false t = false).
  { induction t as [|c t IH]; [reflexivity|]. cbn [testFrom ends fst flat_map]. exact IH. }
  assert (Hs : testFrom (Seq Bol r) true s =
               match ends r (true, s) with [] => false | _ :: _ => true end).
  { destruct s as [|c t]; cbn [testFrom ends fst flat_map]; rewrite app_nil_r;
      destruct (ends r _); try reflexivity. apply Hin. }
  rewrite Hs, nonempty_In. split; intros [y H]; exists y; apply ends_Run; exact H.
Qed.

(** ** The matches of the patterns of the field *)

Lemma Run_Seq r1 r2 x z :
  Run (Seq r1 r2) x z <-> exists y, Run r1 x y /\ Run r2 y z.
Proof.
  split.
  - intros H. inversion H; subst. eauto.
  - intros (y & H1 & H2). apply RunSeq with y; assumption.
Qed.

Lemma Run_Class p b s y :
  Run (Class p) (b, s) y <-> exists c t, s = c :: t /\ p c = true /\ y = (false, t).
Proof.
  split.
  - intros H. inversion H; subst. eauto.
  - intros (c & t & -> & Hc & ->). constructor. exact Hc.
Qed.

Lemma Run_Eol x y : Run Eol x y <-> snd x = [] /\ y = x.
Proof.
  split.
  - intros H. inversion H; subst. split; reflexivity.
  - destruct x as [b s]. cbn [snd]. intros [-> ->]. constructor.
Qed.

Lemma Run_Eps x y : Run Eps x y <-> y = x.
Proof.
  unfold Eps. split.
  - intros H. inversion H; subst; [reflexivity|].
    match goal with H1 : Run (Class _) _ _ |- _ => inversion H1; discriminate end.
  - intros ->. constructor.
Qed.

Lemma Run_Opt r x y : Run (Opt r) x y <-> Run r x y \/ y = x.
Proof.
  unfold Opt. split.
  - intros H. inversion H; subst; [left; assumption|right; apply Run_Eps; assumption].
  - intros [H| ->]; [apply RunAltL, H|apply RunAltR, Run_Eps; reflexivity].
Qed.

Lemma Run_Plus r x z :
  Run (Plus r) x z <-> exists y, Run r x y /\ Run (Star r) y z.
Proof.
  split.
  - intros H. inversion H; subst. eauto.
  - intros (y & H1 & H2). apply RunPlus with y; assumption.
Qed.

Lemma flagAfter_app b u v : flagAfter b (u ++ v) = flagAfter (flagAfter b u) v.
Proof. destruct u, v; reflexivity. Qed.

(** Iterating a pattern whose matches are the non-empty words in [W]. *)
Lemma Run_Star_words r (W : jsstring -> Prop) :
  (forall w, W w -> w <> []) ->
  (forall b s y, Run r (b, s) y <-> exists w, W w /\ s = w ++ snd y /\ fst y = false) ->
  forall b s y,
    Run (Star r) (b, s) y <->
    exists ws, Forall W ws /\ s = concat ws ++ snd y /\ fst y = flagAfter b (concat ws).
Proof.
  intros Hne Hr b s y. split.
  - intros H. remember (Star r) as r0 eqn:E. remember (b, s) as x eqn:Ex.
    revert b s Ex. induction H; try discriminate E; intros b0 s0 Ex.
    + subst x. exists []. repeat split. constructor.
    + injection E as ->. subst x. destruct y as [b1 s1].
      apply Hr in H as (w & Hw & -> & Hb). cbn [fst snd] in *. subst b1.
      destruct (IHRun2 eq_refl false s1 eq_refl) as (ws & Hws & -> & Hz).
      exists (w :: ws). cbn [concat]. rewrite <- app_assoc.
      repeat split; [constructor; assumption|].
      rewrite Hz, flagAfter_app.
      pose proof (Hne w Hw). destruct w; [contradiction|]. reflexivity.
  - intros (ws & Hws & -> & Hy). destruct y as [b1 s1]. cbn [fst snd] in *. subst b1.
    revert b. induction Hws as [|w ws Hw _ IH]; intros b; [constructor|].
    cbn [concat]. rewrite <- app_assoc.
    apply RunStarMore with (false, concat ws ++ s1).
    + apply Hr. exists w. repeat split. exact Hw.
    + unfold remaining. cbn [snd]. rewrite (length_app w).
      pose proof (Hne w Hw). destruct w; [contradiction|]. simpl. lia.
    + rewrite flagAfter_app. pose proof (Hne w Hw).
      destruct w; [contradiction|]. apply IH.
Qed.

Lemma singletons_forallb (p : N -> bool) ws :
  Forall (fun w => exists c, w = [c] /\ p c = true) ws -> forallb p (concat ws) = true.
Proof.
  induction 1 as [|w ws (c & -> & Hc) _ IH]; [reflexivity|].
  cbn [concat app forallb]. rewrite Hc, IH. reflexivity.
Qed.

Lemma forallb_singletons (p : N -> bool) u :
  forallb p u = true ->
  exists ws, Forall (fun w => exists c, w = [c] /\ p c = true) ws /\ concat ws = u.
Proof.
  induction u as [|c u IH]; intros H.
  - exists []. split; [constructor|reflexivity].
  - cbn [forallb] in H. apply andb_prop in H as [Hc H].
    destruct (IH H) as (ws & Hws & <-).
    exists ([c] :: ws). split; [constructor; eauto|reflexivity].
Qed.

Lemma Run_Star_Class p b s y :
  Run (Star (Class p)) (b, s) y <->
  exists u, forallb p u = true /\ s = u ++ snd y /\ fst y = flagAfter b u.
Proof.
  rewrite (@Run_Star_words (Class p) (fun w => exists c, w = [c] /\ p c = true)).
  - split.
    + intros (ws & Hws & Hs & Hy). exists (concat ws).
      split; [apply singletons_forallb, Hws|split; assumption].
    + intros (u & Hu & Hs & Hy). destruct (forallb_singletons p u Hu) as (ws & Hws & <-).
      exists ws. repeat split; assumption.
  - intros w (c & -> & _). discriminate.
  - intros b0 s0 y0. rewrite Run_Class. split.
    + intros (c & t & -> & Hc & ->). exists [c]. repeat split. eauto.
    + intros (w & (c & -> & Hc) & -> & Hb). destruct y0 as [b1 s1].
      cbn [fst snd] in *. subst b1. exists c, s1. repeat split. exact Hc.
Qed.

Lemma Run_Plus_Class p b s y :
  Run (Plus (Class p)) (b, s) y <->
  exists u, u <> [] /\ forallb p u = true /\ s = u ++ snd y /\ fst y = false.
Proof.
  rewrite Run_Plus. split.
  - intros (m & H1 & H2). apply Run_Class in H1 as (c & t & -> & Hc & ->).
    apply Run_Star_Class in H2 as (u & Hu & -> & Hy).
    exists (c :: u). cbn [forallb]. rewrite Hc, Hu, Hy.
    repeat split; [discriminate|destruct u; reflexivity].
  - intros (u & Hne & Hu & -> & Hy). destruct u as [|c u]; [contradiction|].
    cbn [forallb] in Hu. apply andb_prop in Hu as [Hc Hu].
    exists (false, u ++ snd y). split.
    + apply Run_Class. exists c, (u ++ snd y). repeat split. exact Hc.
    + apply Run_Star_Class. exists u. repeat split; [exact Hu|].
      rewrite Hy. destruct u; reflexivity.
Qed.

Lemma Run_UpTo_Class p n : forall b s y,
  Run (UpTo n (Class p)) (b, s) y <->
  exists u, length u <= n /\ forallb p u = true /\ s = u ++ snd y /\
            fst y = flagAfter b u.
Proof.
  induction n as [|n IH]; intros b s y; cbn [UpTo].
  - rewrite Run_Eps. split.
    + intros ->. exists []. repeat split. reflexivity.
    + intros (u & Hl & _ & -> & Hy). destruct u; [|simpl in Hl; lia].
      destruct y as [b1 s1]. cbn [fst snd flagAfter app] in *. subst. reflexivity.
  - rewrite Run_Opt, Run_Seq. split.
    + intros [(m & H1 & H2)| ->].
      * apply Run_Class in H1 as (c & t & -> & Hc & ->).
        apply IH in H2 as (u & Hl & Hu & -> & Hy).
        exists (c :: u). cbn [forallb length]. rewrite Hc, Hu, Hy.
        repeat split; [lia|destruct u; reflexivity].
      * exists []. repeat split. simpl. lia.
    + intros (u & Hl & Hu & -> & Hy). destruct u as [|c u].
      * right. destruct y as [b1 s1]. cbn [fst snd flagAfter app] in *. subst. reflexivity.
      * left. cbn [forallb] in Hu. apply andb_prop in Hu as [Hc Hu].
        exists (false, u ++ snd y). split.
        -- apply Run_Class. exists c, (u ++ snd y). repeat split. exact Hc.
        -- apply IH. exists u. simpl in Hl. repeat split; [lia|exact Hu|].
           rewrite Hy. destruct u; reflexivity.
Qed.

Lemma Run_domainPart b s y :
  Run reDomainPart (b, s) y <->
  exists w, (exists part, w = 46%N :: part /\ isDomainPart part) /\
            s = w ++ snd y /\ fst y = false.
Proof.
  unfold reDomainPart. rewrite Run_Seq. split.
  - intros (m & H1 & H2). apply Run_Class in H1 as (c & t & -> & Hc & ->).
    apply Run_Seq in H2 as (m & H2 & H3).
    apply Run_Class in H2 as (l & t' & -> & Hl & ->).
    apply Run_Plus_Class in H3 as (u & Hne & Hu & -> & Hy).
    unfold isDot in Hc. apply N.eqb_eq in Hc. subst c.
    exists (46%N :: l :: u). split; [|split; [reflexivity|exact Hy]].
    exists (l :: u). split; [reflexivity|]. split.
    + destruct u; [contradiction|simpl; lia].
    + cbn [forallb]. rewrite Hl, Hu. reflexivity.
  - intros (w & (part & -> & Hlen & Hpart) & -> & Hy).
    destruct part as [|l [|l' u]]; try (simpl in Hlen; lia).
    cbn [forallb] in Hpart. apply andb_prop in Hpart as [Hl Hu].
    exists (false, (l :: l' :: u) ++ snd y). split.
    + apply Run_Class. eexists _, _. repeat split.
    + apply Run_Seq. exists (false, (l' :: u) ++ snd y). split.
      * apply Run_Class. eexists _, _. repeat split. exact Hl.
      * apply Run_Plus_Class. exists (l' :: u). repeat split; [discriminate|exact Hu|exact Hy].
Qed.

Lemma domainWords_parts ws :
  Forall (fun w => exists part, w = 46%N :: part /\ isDomainPart part) ws ->
  exists parts, Forall isDomainPart parts /\ dotted parts = concat ws /\
                (ws <> [] -> parts <> []).
Proof.
  induction 1 as [|w ws (part & -> & Hp) _ (parts & Hparts & E & _)].
  - exists []. repeat split; [constructor|contradiction].
  - exists (part :: parts). repeat split; [constructor; assumption| |discriminate].
    unfold dotted in *. cbn [flat_map concat]. rewrite E. reflexivity.
Qed.

Lemma parts_domainWords parts :
  Forall isDomainPart parts ->
  Forall (fun w => exists part, w = 46%N :: part /\ isDomainPart part)
         (map (cons 46%N) parts) /\
  concat (map (cons 46%N) parts) = dotted parts.
Proof.
  induction 1 as [|part parts Hp _ [IH E]]; [split; [constructor|reflexivity]|].
  split; [constructor; eauto|].
  unfold dotted in *. cbn [map concat flat_map]. rewrite E. reflexivity.
Qed.

Lemma Run_Star_domainPart b s y :
  Run (Star reDomainPart) (b, s) y <->
  exists parts, Forall isDomainPart parts /\ s = dotted parts ++ snd y /\
                fst y = flagAfter b (dotted parts).
Proof.
  rewrite (@Run_Star_words reDomainPart
             (fun w => exists part, w = 46%N :: part /\ isDomainPart part)).
  - split.
    + intros (ws & Hws & Hs & Hy).
      destruct (domainWords_parts Hws) as (parts & Hparts & E & _).
      exists parts. rewrite E. repeat split; assumption.
    + intros (parts & Hparts & Hs & Hy).
      destruct (parts_domainWords Hparts) as [Hws E].
      exists (map (cons 46%N) parts). rewrite E. repeat split; assumption.
  - intros w (part & -> & _). discriminate.
  - intros b0 s0 y0. apply Run_domainPart.
Qed.

Lemma Run_Plus_domainPart b s y :
  Run (Plus reDomainPart) (b, s) y <->
  exists parts, parts <> [] /\ Forall isDomainPart parts /\
                s = dotted parts ++ snd y /\ fst y = false.
Proof.
  rewrite Run_Plus. split.
  - intros ([b1 s1] & H1 & H2).
    apply Run_domainPart in H1 as (w & (part & -> & Hp) & -> & Hb).
    apply Run_Star_domainPart in H2 as (parts & Hparts & E & Hy).
    cbn [fst snd] in *. subst b1 s1.
    exists (part :: parts). repeat split; [discriminate|constructor; assumption| |].
    + unfold dotted. cbn [flat_map]. rewrite <- !app_assoc. reflexivity.
    + rewrite Hy. destruct (dotted parts); reflexivity.
  - intros (parts & Hne & Hparts & -> & Hy).
    destruct parts as [|part parts]; [contradiction|].
    inversion Hparts as [|? ? Hp Hrest]; subst.
    exists (false, dotted parts ++ snd y). split.
    + apply Run_domainPart. exists (46%N :: part). repeat split; [eauto|].
      unfold dotted. cbn [flat_map snd]. rewrite <- !app_assoc. reflexivity.
    + apply Run_Star_domainPart. exists parts. repeat split; [exact Hrest|].
      rewrite Hy. destruct (dotted parts); reflexivity.
Qed.

Lemma Run_pathPart b s y :
  Run rePathPart (b, s) y <->
  exists c tail, isSlashOrQuery c = true /\ forallb notLineTerminator tail = true /\
                 s = c :: tail ++ snd y /\ fst y = false.
Proof.
  unfold rePathPart. rewrite Run_Seq. split.
  - intros (m & H1 & H2). apply Run_Class in H1 as (c & t & -> & Hc & ->).
    apply Run_Star_Class in H2 as (u & Hu & -> & Hy).
    exists c, u. repeat split; try assumption. rewrite Hy. destruct u; reflexivity.
  - intros (c & tail & Hc & Ht & -> & Hy).
    exists (false, tail ++ snd y). split.
    + apply Run_Class. eexists _, _. repeat split. exact Hc.
    + apply Run_Star_Class. exists tail. repeat split; [exact Ht|].
      rewrite Hy. destruct tail; reflexivity.
Qed.

(** The regular expression test and the grammar in words agree. *)
Lemma urlRegex_grammar s : regex_test urlRegex s = true <-> urlGrammar s.
Proof.
  unfold urlRegex. rewrite test_anchored. split.
  - intros (y & H).
    apply Run_Seq in H as (y1 & H1 & H).
    apply Run_Class in H1 as (first & t1 & -> & Hfirst & ->).
    apply Run_Seq in H as ([b2 t2] & H2 & H).
    apply Run_UpTo_Class in H2 as (middle & Hlen & Hmid & -> & _). cbn [snd] in *.
    apply Run_Seq in H as (y3 & H3 & H).
    apply Run_Class in H3 as (last & t3 & -> & Hlast & ->).
    apply Run_Seq in H as ([b4 t4] & H4 & H).
    apply Run_Plus_domainPart in H4 as (parts & Hne & Hparts & -> & Hb4).
    cbn [fst snd] in *. subst b4.
    apply Run_Seq in H as ([b5 t5] & H5 & H).
    apply Run_Eol in H as [Hend _]. cbn [snd] in Hend. subst t5.
    exists first, middle, last, parts, t4.
    repeat split; try assumption.
    apply Run_Opt in H5 as [H5|H5].
    + apply Run_pathPart in H5 as (c & tail & Hc & Ht & -> & _).
      right. exists c, tail. cbn [snd]. rewrite app_nil_r. repeat split; assumption.
    + injection H5 as _ <-. left. reflexivity.
  - intros (first & middle & last & parts & rest & -> & Hfirst & Hmid & Hlen & Hlast
            & Hne & Hparts & Hrest).
    exists (false, []).
    apply Run_Seq. exists (false, middle ++ last :: dotted parts ++ rest). split.
    { apply Run_Class. eexists _, _. repeat split. exact Hfirst. }
    apply Run_Seq. exists (flagAfter false middle, last :: dotted parts ++ rest). split.
    { apply Run_UpTo_Class. exists middle. repeat split; assumption. }
    apply Run_Seq. exists (false, dotted parts ++ rest). split.
    { apply Run_Class. eexists _, _. repeat split. exact Hlast. }
    apply Run_Seq. exists (false, rest). split.
    { apply Run_Plus_domainPart. exists parts. repeat split; assumption. }
    apply Run_Seq. exists (false, []). split; [|apply Run_Eol; split; reflexivity].
    apply Run_Opt. destruct Hrest as [->|(c & tail & -> & Hc & Ht)]; [right; reflexivity|].
    left. apply Run_pathPart. exists c, tail. cbn [snd]. rewrite app_nil_r.
    repeat split; assumption.
Qed.

(** ** What the rule of the website field accepts *)

Lemma websiteUrl_error_grammar rawValue :
  urlError (websiteUrlOnChange rawValue) = false <->
  cleanUrl rawValue = [] \/ urlGrammar (cleanUrl rawValue).
Proof.
  unfold websiteUrlOnChange. cbn [urlError]. rewrite <- urlRegex_grammar.
  destruct (cleanUrl rawValue) as [|c t] eqn:E; cbn [isTruthy andb].
  - split; [left; reflexivity|reflexivity].
  - destruct (regex_test urlRegex (c :: t)); cbn [negb]; split; auto.
    intros [H|H]; discriminate.
Qed.

(** X14. The rule leaves the field without error exactly when the cleaned
    value is empty or is an address of the grammar: a first label of 2 to 63
    letters, digits and hyphens beginning and ending with a letter or digit,
    one or more parts of a dot and at least two letters, then nothing or a
    path or query on the same line.  The value it returns is empty for an
    empty cleaned value and the cleaned value behind "https://" otherwise. *)
Theorem websiteUrl_error_iff (rawValue : jsstring) :
  (urlError (websiteUrlOnChange rawValue) = false <->
   cleanUrl rawValue = [] \/ urlGrammar (cleanUrl rawValue)) /\
  formValue (websiteUrlOnChange rawValue) =
  match cleanUrl rawValue with
  | [] => []
  | _ :: _ => lit "https://" ++ cleanUrl rawValue
  end.
Proof.
  split; [apply websiteUrl_error_grammar|].
  unfold websiteUrlOnChange. cbn [formValue].
  destruct (cleanUrl rawValue); reflexivity.
Qed.

Lemma dotted_length parts :
  parts <> [] -> Forall isDomainPart parts -> 3 <= length (dotted parts).
Proof.
  intros Hne H. destruct H as [|part parts [Hlen _] _]; [contradiction|].
  unfold dotted. cbn [flat_map]. rewrite length_app. simpl. lia.
Qed.

Lemma letter_hostChar c : isLetter c = true -> isHostChar c = true.
Proof. unfold isHostChar, isLabelChar, isAlnumChar. intros ->. reflexivity. Qed.

Lemma hostChar_not_slash c : isHostChar c = true -> isSlashOrQuery c = false.
Proof.
  intros H. destruct (isSlashOrQuery c) eqn:E; [|reflexivity].
  unfold isSlashOrQuery in E. apply orb_prop in E as [E|E];
    apply N.eqb_eq in E; subst c; discriminate H.
Qed.

Lemma labelChar_not_dot c : isLabelChar c = true -> isDot c = false.
Proof.
  intros H. destruct (isDot c) eqn:E; [|reflexivity].
  unfold isDot in E. apply N.eqb_eq in E. subst c. discriminate H.
Qed.

Lemma hostOf_app u v :
  forallb isHostChar u = true -> hostOf (u ++ v) = u ++ hostOf v.
Proof.
  induction u as [|c u IH]; intros H; [reflexivity|].
  cbn [forallb] in H. apply andb_prop in H as [Hc H].
  cbn [app hostOf]. rewrite (hostChar_not_slash _ Hc), IH by exact H. reflexivity.
Qed.

Lemma dotted_hostChars parts :
  Forall isDomainPart parts -> forallb isHostChar (dotted parts) = true.
Proof.
  induction 1 as [|part parts [_ Hp] _ IH]; [reflexivity|].
  unfold dotted in *. cbn [flat_map app forallb]. rewrite forallb_app, IH.
  change (isHostChar 46) with true. cbn [andb]. rewrite andb_true_r.
  apply forallb_forall. intros c Hc. rewrite forallb_forall in Hp.
  apply letter_hostChar, Hp, Hc.
Qed.

Lemma urlGrammar_shape s :
  urlGrammar s ->
  5 <= length s /\ forallb isHostChar (hostOf s) = true /\ secondIsDot s = false.
Proof.
  intros (first & middle & last & parts & rest & -> & Hfirst & Hmid & Hlen & Hlast
          & Hne & Hparts & Hrest).
  assert (Hm : forallb isHostChar middle = true).
  { apply forallb_forall. intros c Hc. rewrite forallb_forall in Hmid.
    unfold isHostChar. rewrite (Hmid c Hc). reflexivity. }
  assert (Hf : isHostChar first = true)
    by (unfold isHostChar, isLabelChar; rewrite Hfirst; reflexivity).
  assert (Hl : isHostChar last = true)
    by (unfold isHostChar, isLabelChar; rewrite Hlast; reflexivity).
  split; [|split].
  - pose proof (dotted_length Hne Hparts).
    cbn [length]. rewrite length_app. cbn [length]. rewrite length_app. lia.
  - assert (Hr : hostOf rest = []).
    { destruct Hrest as [->|(c & tail & -> & Hc & _)]; [reflexivity|].
      cbn [hostOf]. rewrite Hc. reflexivity. }
    change (first :: middle ++ last :: dotted parts ++ rest)
      with ((first :: middle) ++ (last :: dotted parts) ++ rest).
    rewrite hostOf_app by (cbn [forallb]; rewrite Hf, Hm; reflexivity).
    rewrite hostOf_app by (cbn [forallb]; rewrite Hl; apply dotted_hostChars, Hparts).
    rewrite Hr, app_nil_r, forallb_app. cbn [forallb].
    rewrite Hf, Hm, Hl, (dotted_hostChars Hparts). reflexivity.
  - destruct middle as [|m middle]; cbn [app secondIsDot].
    + apply labelChar_not_dot. unfold isLabelChar. rewrite Hlast. reflexivity.
    + cbn [forallb] in Hmid. apply andb_prop in Hmid as [Hmc _].
      apply labelChar_not_dot, Hmc.
Qed.

(** X15. The rule sets the error for every non-empty cleaned value that is
    shorter than five characters, that has a character other than letters,
    digits, hyphens and dots before its first slash or question mark (a
    port, a user name, a space), or whose second character is a dot (a first
    label of one character). *)
Theorem websiteUrl_rejects (rawValue : jsstring) :
  cleanUrl rawValue <> [] ->
  length (cleanUrl rawValue) < 5 \/
  forallb isHostChar (hostOf (cleanUrl rawValue)) = false \/
  secondIsDot (cleanUrl rawValue) = true ->
  urlError (websiteUrlOnChange rawValue) = true.
Proof.
  intros Hne Hbad. apply not_false_is_true. intros Hok.
  apply websiteUrl_error_grammar in Hok as [E|G]; [contradiction|].
  destruct (urlGrammar_shape G) as (H1 & H2 & H3).
  destruct Hbad as [H|[H|H]]; [lia|congruence|congruence].
Qed.

(** "localhost:3000" has a colon in its host, "x.com" a first label of one
    character. *)
Lemma localhost_port_rejected :
  urlError (websiteUrlOnChange (lit "localhost:3000")) = true.
Proof.
  refine (@websiteUrl_rejects (lit "localhost:3000") _ (or_intror (or_introl eq_refl))).
  discriminate.
Defined.

(** ** Cleaning the value *)

Lemma Run_Chars p : forall b s y,
  Run (Chars p) (b, s) y <-> s = p ++ snd y /\ fst y = flagAfter b p.
Proof.
  induction p as [|c p IH]; intros b s y; cbn [Chars].
  - rewrite Run_Eps. destruct y as [b1 s1]. cbn [fst snd flagAfter app]. split.
    + intros E. injection E as -> ->. split; reflexivity.
    + intros [-> ->]. reflexivity.
  - rewrite Run_Seq. split.
    + intros (m & H1 & H2). apply Run_Class in H1 as (d & t & -> & Hd & ->).
      apply N.eqb_eq in Hd. subst d. apply IH in H2 as [-> Hy].
      split; [reflexivity|]. rewrite Hy. destruct p; reflexivity.
    + intros [-> Hy]. exists (false, p ++ snd y). split.
      * apply Run_Class. eexists _, _. repeat split. apply N.eqb_refl.
      * apply IH. split; [reflexivity|]. rewrite Hy. destruct p; reflexivity.
Qed.

Lemma startsWith_spec p : forall s, startsWith p s = true <-> exists t, s = p ++ t.
Proof.
  induction p as [|c p IH]; intros s; cbn [startsWith].
  - split; [intros _; exists s; reflexivity|reflexivity].
  - destruct s as [|d s].
    + split; [discriminate|intros [t H]; discriminate].
    + rewrite andb_true_iff, N.eqb_eq, IH. split.
      * intros [-> [t ->]]. exists t. reflexivity.
      * intros [t H]. injection H as -> ->. split; [reflexivity|eauto].
Qed.

Lemma ends_without_Run r x : (forall y, ~ Run r x y) -> ends r x = [].
Proof.
  intros H. destruct (ends r x) as [|y l] eqn:E; [reflexivity|].
  exfalso. apply (H y), ends_Run. rewrite E. left. reflexivity.
Qed.

Lemma Run_reProtocol b s y :
  Run reProtocol (b, s) y -> startsWithProtocol s = true.
Proof.
  unfold reProtocol. intros H.
  apply Run_Seq in H as ([b1 s1] & H1 & H).
  apply Run_Chars in H1 as [-> _]. cbn [snd] in *.
  apply Run_Seq in H as ([b2 s2] & H2 & H).
  apply Run_Chars in H as [E _]. cbn [snd] in E.
  unfold startsWithProtocol. apply orb_true_iff.
  apply Run_Opt in H2 as [H2|H2].
  - apply Run_Class in H2 as (c & t & -> & Hc & E2). injection E2 as _ E2.
    apply N.eqb_eq in Hc. subst. right. reflexivity.
  - injection H2 as _ E2. subst. left. reflexivity.
Qed.

Lemma ends_reProtocol_none b x :
  startsWithProtocol x = false -> ends reProtocol (b, x) = [].
Proof.
  intros H. apply ends_without_Run. intros y Hy.
  apply Run_reProtocol in Hy. congruence.
Qed.

Lemma ends_Eps x : ends Eps x = [x].
Proof.
  unfold Eps. cbn [ends]. destruct x as [b [|c t]]; [reflexivity|].
  unfold remaining. cbn [snd length iterStar ends flat_map app]. reflexivity.
Qed.

Lemma ends_Opt r x : ends (Opt r) x = ends r x ++ [x].
Proof. unfold Opt. change (ends (Alt r Eps) x) with (ends r x ++ ends Eps x).
  rewrite ends_Eps. reflexivity. Qed.

Lemma ends_Chars p : forall b s,
  ends (Chars p) (b, s) =
  if startsWith p s then [(flagAfter b p, skipn (length p) s)] else [].
Proof.
  induction p as [|c p IH]; intros b s; cbn [Chars].
  - rewrite ends_Eps. reflexivity.
  - rewrite ends_seq, ends_class. destruct s as [|d s]; [reflexivity|].
    cbn [startsWith length skipn flagAfter].
    destruct (c =? d)%N; [|reflexivity].
    cbn [flat_map andb]. rewrite app_nil_r, IH.
    destruct (startsWith p s); [|reflexivity]. destruct p; reflexivity.
Qed.

Lemma ends_reProtocol_some b p rest :
  isProtocol p -> ends reProtocol (b, p ++ rest) = [(false, rest)].
Proof.
  intros Hp. unfold reProtocol. rewrite ends_seq, ends_Chars.
  replace (startsWith (lit "http") (p ++ rest)) with true
    by (destruct Hp as [->| ->]; reflexivity).
  cbn [flat_map]. rewrite app_nil_r, ends_seq, ends_Opt, ends_class, flat_map_app.
  destruct Hp as [->| ->].
  - change (skipn (length (lit "http")) (lit "http://" ++ rest))
      with (lit "://" ++ rest).
    change (lit "://" ++ rest) with (58%N :: 47%N :: 47%N :: rest).
    cbn [N.eqb Pos.eqb flat_map app]. rewrite ends_Chars. reflexivity.
  - change (skipn (length (lit "http")) (lit "https://" ++ rest))
      with (115%N :: lit "://" ++ rest).
    cbn [N.eqb Pos.eqb flat_map app]. rewrite !ends_Chars. reflexivity.
Qed.

Lemma iterStar_protocols ps x :
  Forall isProtocol ps -> startsWithProtocol x = false ->
  forall fuel b,
    length (concat ps ++ x) <= fuel ->
    exists l, iterStar (ends reProtocol) fuel (b, concat ps ++ x) =
              (flagAfter b (concat ps), x) :: l.
Proof.
  intros Hps Hx. induction Hps as [|p ps Hp _ IH]; intros fuel b Hfuel.
  - cbn [concat app flagAfter]. destruct fuel as [|n]; cbn [iterStar]; [eauto|].
    rewrite ends_reProtocol_none by exact Hx. cbn [flat_map app]. eauto.
  - cbn [concat] in *. rewrite <- app_assoc in *.
    assert (Hlen : 7 <= length p) by (destruct Hp as [->| ->]; simpl; lia).
    rewrite length_app in Hfuel.
    destruct fuel as [|n]; [lia|]. cbn [iterStar].
    rewrite ends_reProtocol_some by exact Hp. cbn [flat_map].
    unfold remaining at 1 2. cbn [snd].
    replace (length (concat ps ++ x) <? length (p ++ concat ps ++ x)) with true
      by (symmetry; apply Nat.ltb_lt; rewrite (length_app p); lia).
    destruct (IH n false) as (l & ->); [lia|].
    eexists. cbn [app].
    replace (flagAfter b (p ++ concat ps)) with (flagAfter false (concat ps)).
    + reflexivity.
    + rewrite flagAfter_app. destruct p; [simpl in Hlen; lia|reflexivity].
Qed.

Lemma ends_reProtocols_none x :
  startsWithProtocol x = false -> ends reProtocols (true, x) = [].
Proof.
  intros Hx. unfold reProtocols. rewrite ends_seq. cbn [ends fst flat_map].
  rewrite ends_reProtocol_none by exact Hx. reflexivity.
Qed.

Lemma ends_reProtocols_some p ps x :
  Forall isProtocol (p :: ps) -> startsWithProtocol x = false ->
  hd_error (ends reProtocols (true, concat (p :: ps) ++ x)) = Some (false, stripWww x).
Proof.
  intros Hps Hx. inversion Hps as [|p' ps' Hp Hps']; subst.
  unfold reProtocols. rewrite ends_seq.
  change (ends Bol (true, concat (p :: ps) ++ x)) with [(true, concat (p :: ps) ++ x)].
  cbn [flat_map]. rewrite app_nil_r, ends_seq.
  change (ends (Plus reProtocol) (true, concat (p :: ps) ++ x))
    with (flat_map (fun y => iterStar (ends reProtocol) (remaining y) y)
            (ends reProtocol (true, concat (p :: ps) ++ x))).
  cbn [concat]. rewrite <- app_assoc, ends_reProtocol_some by exact Hp.
  cbn [flat_map]. rewrite app_nil_r. unfold remaining. cbn [snd].
  destruct (@iterStar_protocols ps x Hps' Hx (length (concat ps ++ x)) false
              (le_n _)) as (l & ->).
  cbn [flat_map]. rewrite ends_Opt, ends_Chars.
  replace (flagAfter false (concat ps)) with false by (destruct (concat ps); reflexivity).
  unfold stripWww. change (length (lit "www.")) with 4.
  destruct (startsWith (lit "www.") x); reflexivity.
Qed.

Lemma replaceFirstFrom_Bol r repl s :
  replaceFirstFrom (Seq Bol r) repl false s = s.
Proof.
  induction s as [|c t IH]; cbn [replaceFirstFrom]; rewrite ends_seq;
    cbn [ends fst flat_map hd_error]; [reflexivity|].
  rewrite IH. reflexivity.
Qed.

Lemma replaceFirstFrom_match r repl b s y :
  hd_error (ends r (b, s)) = Some y -> replaceFirstFrom r repl b s = repl ++ snd y.
Proof. intros H. destruct s; unfold replaceFirstFrom; rewrite H; reflexivity. Qed.

Lemma replaceFirst_reProtocols ps x :
  Forall isProtocol ps -> startsWithProtocol x = false ->
  replaceFirst reProtocols (lit "") (concat ps ++ x) =
  match ps with
  | [] => x
  | _ :: _ => stripWww x
  end.
Proof.
  intros Hps Hx. unfold replaceFirst. destruct ps as [|p ps].
  - cbn [concat app]. destruct x as [|c t]; cbn [replaceFirstFrom];
      rewrite ends_reProtocols_none by exact Hx; cbn [hd_error]; [reflexivity|].
    unfold reProtocols. rewrite replaceFirstFrom_Bol. reflexivity.
  - apply replaceFirstFrom_match with (y := (false, stripWww x)).
    apply (@ends_reProtocols_some p ps x Hps Hx).
Qed.

Lemma replaceFirstFrom_reTrailingSlash s : forall b,
  replaceFirstFrom reTrailingSlash (lit "") b s = dropSlash s.
Proof.
  unfold reTrailingSlash.
  induction s as [|c t IH]; intros b; cbn [replaceFirstFrom]; rewrite ends_seq, ends_class;
    [reflexivity|].
  cbn [dropSlash]. destruct t as [|d t].
  - destruct (47 =? c)%N eqn:E.
    + apply N.eqb_eq in E. subst c. reflexivity.
    + rewrite N.eqb_sym in E. rewrite E. reflexivity.
  - rewrite <- (IH false).
    destruct (47 =? c)%N; reflexivity.
Qed.

Lemma dropWhile_all p ws s :
  forallb p ws = true -> dropWhile p (ws ++ s) = dropWhile p s.
Proof.
  induction ws as [|c ws IH]; intros H; [reflexivity|].
  cbn [forallb] in H. apply andb_prop in H as [Hc H].
  cbn [app dropWhile]. rewrite Hc. apply IH, H.
Qed.

Lemma dropWhile_app p s u :
  (dropWhile p s = [] /\ forallb p s = true) \/
  (dropWhile p s <> [] /\ dropWhile p (s ++ u) = dropWhile p s ++ u).
Proof.
  induction s as [|c s IH]; [left; split; reflexivity|].
  cbn [app dropWhile forallb]. destruct (p c); [exact IH|].
  right. split; [discriminate|reflexivity].
Qed.

Lemma forallb_reverse (p : N -> bool) s : forallb p (rev s) = forallb p s.
Proof.
  induction s as [|c s IH]; [reflexivity|].
  cbn [rev forallb]. rewrite forallb_app, IH. cbn [forallb].
  rewrite andb_true_r. apply andb_comm.
Qed.

Lemma trim_white ws1 s ws2 :
  forallb isWhiteSpace ws1 = true -> forallb isWhiteSpace ws2 = true ->
  trim (ws1 ++ s ++ ws2) = trim s.
Proof.
  intros H1 H2. unfold trim. rewrite dropWhile_all by exact H1.
  destruct (dropWhile_app isWhiteSpace s ws2) as [[E Hs]|[Hne ->]].
  - rewrite E. rewrite <- (app_nil_r (s ++ ws2)), dropWhile_all; [reflexivity|].
    rewrite forallb_app, Hs, H2. reflexivity.
  - rewrite rev_app_distr, dropWhile_all; [reflexivity|].
    rewrite forallb_reverse. exact H2.
Qed.

(** X16. White space and line terminators before and after the typed value
    do not change what the rule does: the error it sets or clears and the
    value it returns are those of the value without them. *)
Theorem websiteUrl_ignores_white (ws1 rawValue ws2 : jsstring) :
  forallb isWhiteSpace ws1 = true -> forallb isWhiteSpace ws2 = true ->
  websiteUrlOnChange (ws1 ++ rawValue ++ ws2) = websiteUrlOnChange rawValue.
Proof.
  intros H1 H2. unfold websiteUrlOnChange, cleanUrl.
  rewrite trim_white by assumption. reflexivity.
Qed.

(** " example.com\t\n" is treated as "example.com". *)
Lemma padded_address_same_result :
  websiteUrlOnChange (lit " " ++ lit "example.com" ++ [9%N; 10%N]) =
  websiteUrlOnChange (lit "example.com").
Proof.
  apply (@websiteUrl_ignores_white (lit " ") (lit "example.com") [9%N; 10%N]);
    reflexivity.
Defined.

(** X17. The cleaned value, for a trimmed value made of any number of
    "http://" and "https://" followed by a rest that begins with neither:
    all of them are removed, a "www." at the start of the rest is removed
    only when at least one of them was there, and then one slash at the end
    is removed. *)
Theorem cleanUrl_shape (rawValue : jsstring) (ps : list jsstring) (x : jsstring) :
  trim rawValue = concat ps ++ x ->
  Forall isProtocol ps -> startsWithProtocol x = false ->
  cleanUrl rawValue =
  dropSlash (match ps with [] => x | _ :: _ => stripWww x end).
Proof.
  intros E Hps Hx. unfold cleanUrl. rewrite E, replaceFirst_reProtocols by assumption.
  apply replaceFirstFrom_reTrailingSlash.
Qed.

(** " https://http://www.example.com/ " is cleaned to "example.com". *)
Lemma repeated_protocols_stripped :
  cleanUrl (lit " https://http://www.example.com/ ") = lit "example.com".
Proof.
  refine (@cleanUrl_shape (lit " https://http://www.example.com/ ")
            [lit "https://"; lit "http://"] (lit "www.example.com/")
            eq_refl _ eq_refl).
  exact (Forall_cons _ (or_intror eq_refl)
           (Forall_cons _ (or_introl eq_refl) (Forall_nil _))).
Defined.
